(** * udaq_decoder: the hit-buffer decoder of [decode_hitbuffer.py]

    A shallow embedding of [src/udaq_decoder/decode_hitbuffer.py] and the
    properties its specification states about it.

    Python integers are unbounded, so they are [Z]; [>>], [<<] and [&] are
    [Z.shiftr], [Z.shiftl] and [Z.land].  A [dict[int, int]] is a
    [gmap Z Z] and the view returned by [dict.keys()] is its domain, a
    [gset Z] (Python compares key views as sets).  The word iterator
    [words] that the dispatch loop and the frame decoders share is the list
    of the words not yet consumed, threaded through a small state-and-error
    monad whose failure is Python's [StopIteration]. *)

From Stdlib Require Import ZArith List Bool Lia.
From Stdlib Require Import Strings.Byte.
From stdpp Require Import base numbers option list gmap.

Local Open Scope Z_scope.

(** ** Constants *)

Definition OBJECT_CODE_PPS_SECOND : Z := 0xe0.
Definition OBJECT_MASK_PPS_SECOND : Z := 0xfc.
Definition OBJECT_CODE_PPS_YEAR : Z := 0xe4.
Definition OBJECT_CODE_TRIG_CONFIG : Z := 0xe5.
Definition OBJECT_CODE_DATA_FORMAT : Z := 0xe6.
Definition OBJECT_CODE_PAGE_END : Z := 0xe7.
Definition OBJECT_CODE_GENERIC : Z := 0xf0.
Definition OBJECT_MASK_GENERIC : Z := 0xf0.

Definition STATUS_CPUTRIG_ACTIVE : Z := Z.shiftl 1 5.

(** ** Frames *)

(** The subclasses of [RawFrame]; [isinstance] is a match on the
    constructor. *)
Inductive RawFrame : Type :=
| RawFramePpsYear (year : Z)
| RawFramePpsSecond (second : Z)
| RawFrameTriggerConf (rc_status mode offset : Z)
| RawFrameDataFormat (subtype detail_bits : Z)
| RawFrameHit (offset tot : Z) (adc_data : gmap Z Z).

Record Hit : Type := mkHit {
  year : Z;
  ns_10th : Z;
  adc_data : gmap Z Z;
  tot : Z;
  cpu_trigger : bool
}.

(** ** The word iterator *)

(** A computation that may call [next(words)]: it receives the words still
    in the iterator and returns its value with the words left over, or
    [None] when [next] raised [StopIteration]. *)
Definition Words (A : Type) : Type := list Z -> option (A * list Z).

Definition ret {A} (a : A) : Words A := fun ws => Some (a, ws).

Definition bind {A B} (m : Words A) (k : A -> Words B) : Words B :=
  fun ws => match m ws with
            | Some (a, ws') => k a ws'
            | None => None
            end.

Definition next_word : Words Z :=
  fun ws => match ws with
            | [] => None
            | w :: ws' => Some (w, ws')
            end.

Notation "'do' x <~ m ; k" := (bind m (fun x => k))
  (at level 10, x name, m at level 100, k at level 200).

(** ** Frame decoders *)

Definition _decode_pps_year (header : Z) : Words RawFrame :=
  let year := Z.land header 0xFFFF in
  ret (RawFramePpsYear year).

Definition _decode_pps_second (header : Z) : Words RawFrame :=
  let second := Z.land header 0x03ffffff in
  ret (RawFramePpsSecond second).

Definition _decode_trigger_config (header : Z) : Words RawFrame :=
  let mode := Z.land (Z.shiftr header 16) 0xff in
  let rc_status := Z.land header 0xffff in
  do offset <~ next_word;
  ret (RawFrameTriggerConf rc_status mode offset).

Definition _decode_data_format (header : Z) : Words RawFrame :=
  let subtype := Z.land (Z.shiftr header 16) 0xff in
  let detail_bits := Z.land header 0xffff in
  ret (RawFrameDataFormat subtype detail_bits).

(** The body of [for _ in range(adc_count)], with the loop variables
    [adc_odd], [adc_word] and [adc_data] as arguments. *)
Fixpoint adc_loop (n : nat) (adc_odd : bool) (adc_word : Z)
    (adc_data : gmap Z Z) : Words (gmap Z Z) :=
  match n with
  | O => ret adc_data
  | S n' =>
      do adc_word' <~ (if adc_odd then ret (Z.shiftr adc_word 16) else next_word);
      let adc_odd' := negb adc_odd in
      let adc_index := Z.land (Z.shiftr adc_word' 12) 0xf in
      let adc_value := Z.land adc_word' 0xfff in
      adc_loop n' adc_odd' adc_word' (<[adc_index := adc_value]> adc_data)
  end.

Definition adc_count_of (multi : Z) : Z := Z.land (Z.shiftr multi 28) 0xf.

Definition _decode_hit_tot_adcs (header : Z) : Words RawFrame :=
  let offset := header in
  do multi <~ next_word;
  let adc_count := adc_count_of multi in
  let tot := Z.land (Z.shiftr multi 16) 0xfff in
  let adc_odd := true in
  let adc_word := Z.shiftl (Z.land multi 0xffff) 16 in
  do adc_data <~ adc_loop (Z.to_nat adc_count) adc_odd adc_word ∅;
  ret (RawFrameHit offset tot adc_data).

(** The dictionary [decoders], keyed by the object code. *)
Definition decoders : gmap Z (Z -> Words RawFrame) :=
  <[OBJECT_CODE_PPS_YEAR := _decode_pps_year]>
  (<[OBJECT_CODE_PPS_SECOND := _decode_pps_second]>
  (<[OBJECT_CODE_TRIG_CONFIG := _decode_trigger_config]>
  (<[OBJECT_CODE_DATA_FORMAT := _decode_data_format]> ∅))).

(** [int(1e10)]: the float literal [1e10] is the integer 10^10 exactly (it
    is below 2^53), and [int] of it is that integer.  Python's [//] rounds
    towards minus infinity, as [Z.div] does for a positive divisor. *)
Definition int_1e10 : Z := 10000000000.

Definition resolve_time_10th_ns (second offset : Z) : Z :=
  (second * int_1e10) + ((offset * 125) / 36).

(** ** Unpacking the buffer into words *)

Definition byte_to_Z (b : byte) : Z := Z.of_N (Byte.to_N b).

(** One item of format ['<I']: four bytes, least significant first. *)
Definition unpack_le32 (b0 b1 b2 b3 : byte) : Z :=
  byte_to_Z b0 + 256 * (byte_to_Z b1 + 256 * (byte_to_Z b2 + 256 * byte_to_Z b3)).

(** [struct.iter_unpack('<I', data_raw)], collected: [None] is the
    [struct.error] raised for a buffer whose length is no multiple of 4. *)
Fixpoint iter_unpack_I (data_raw : list byte) : option (list Z) :=
  match data_raw with
  | [] => Some []
  | b0 :: b1 :: b2 :: b3 :: rest =>
      match iter_unpack_I rest with
      | Some ws => Some (unpack_le32 b0 b1 b2 b3 :: ws)
      | None => None
      end
  | _ => None
  end.

(** ** Decoding *)

Inductive Exception : Type :=
| StructError           (* struct.error from iter_unpack *)
| IncompleteFrame       (* ValueError('Incomplete frame at end of data') *)
| NoHitFrame            (* the StopIteration of next(...) over the hit frames *)
| InconsistentChannels. (* ValueError('hit contains ADC keys different ...') *)

Inductive result (A : Type) : Type :=
| Ok (a : A)
| Raise (e : Exception).
Arguments Ok {A} a.
Arguments Raise {A} e.

(** The loop [for header in words] inside the [try].  It returns the list
    [frames] as it is when the loop is left, with [true] when it was left by
    a [StopIteration] coming out of a decoder and [false] when the iterator
    ran dry at a header.  [fuel] bounds the number of iterations; [None]
    means the fuel ran out. *)
Fixpoint frames_loop (fuel : nat) (frames : list RawFrame) (words : list Z)
    : option (list RawFrame * bool) :=
  match words with
  | [] => Some (frames, false)
  | header :: words' =>
      match fuel with
      | O => None
      | S fuel' =>
          let frame_type := Z.shiftr header 24 in
          match decoders !! frame_type with
          | Some decoder =>
              match decoder header words' with
              | Some (frame, words'') => frames_loop fuel' (frames ++ [frame]) words''
              | None => Some (frames, true)
              end
          | None =>
              if frame_type <? 0xdfffffff then
                match _decode_hit_tot_adcs header words' with
                | Some (frame, words'') => frames_loop fuel' (frames ++ [frame]) words''
                | None => Some (frames, true)
                end
              else frames_loop fuel' frames words'
          end
      end
  end.

(** [next(frame.adc_data.keys() for frame in frames if isinstance(frame,
    RawFrameHit))]; [None] is its [StopIteration]. *)
Fixpoint first_hit_adc_keys (frames : list RawFrame) : option (gset Z) :=
  match frames with
  | [] => None
  | RawFrameHit _ _ adc_data :: _ => Some (dom adc_data)
  | _ :: frames' => first_hit_adc_keys frames'
  end.

(** The loop [for frame in frames] that combines the frames, with its
    variables [year], [second], [cpu_trigger] and [hits] as arguments. *)
Fixpoint hits_loop (ignore_errors : bool) (keys : gset Z)
    (frames : list RawFrame) (year second : Z) (cpu_trigger : bool)
    (hits : list Hit) : result (list Hit) :=
  match frames with
  | [] => Ok hits
  | frame :: frames' =>
      match frame with
      | RawFramePpsYear y =>
          hits_loop ignore_errors keys frames' y second cpu_trigger hits
      | RawFramePpsSecond s =>
          hits_loop ignore_errors keys frames' year s cpu_trigger hits
      | RawFrameTriggerConf rc_status _ _ =>
          hits_loop ignore_errors keys frames' year second
            (negb (Z.land rc_status STATUS_CPUTRIG_ACTIVE =? 0)) hits
      | RawFrameHit offset tot adc_data =>
          if bool_decide (dom adc_data ≠ keys) then
            if negb ignore_errors then Raise InconsistentChannels
            else hits_loop ignore_errors keys frames' year second cpu_trigger hits
          else
            hits_loop ignore_errors keys frames' year second cpu_trigger
              (hits ++ [mkHit year (resolve_time_10th_ns second offset)
                                adc_data tot cpu_trigger])
      | RawFrameDataFormat _ _ =>
          hits_loop ignore_errors keys frames' year second cpu_trigger hits
      end
  end.

(** The part of [decode_hitbuffer] after the [try]. *)
Definition combine_frames (ignore_errors : bool) (frames : list RawFrame)
    : result (list Hit) :=
  match first_hit_adc_keys frames with
  | None => Raise NoHitFrame
  | Some keys => hits_loop ignore_errors keys frames (-1) (-1) false []
  end.

(** The [try] block: the frames collected, or the [ValueError] raised when
    a decoder ran out of words and errors are not ignored.  The dispatch
    loop gets one unit of fuel per word. *)
Definition decode_frames (ignore_errors : bool) (words : list Z)
    : option (result (list RawFrame)) :=
  match frames_loop (length words) [] words with
  | None => None
  | Some (frames, stopped) =>
      if stopped && negb ignore_errors then Some (Raise IncompleteFrame)
      else Some (Ok frames)
  end.

Definition decode_words (ignore_errors : bool) (words : list Z)
    : option (result (list Hit)) :=
  match decode_frames ignore_errors words with
  | None => None
  | Some (Raise e) => Some (Raise e)
  | Some (Ok frames) => Some (combine_frames ignore_errors frames)
  end.

(** [decode_hitbuffer(data_raw, ignore_errors)]: [None] only if the
    dispatch loop ran out of fuel, which [decode_hitbuffer_terminates]
    excludes. *)
Definition decode_hitbuffer (data_raw : list byte) (ignore_errors : bool)
    : option (result (list Hit)) :=
  match iter_unpack_I data_raw with
  | None => Some (Raise StructError)
  | Some words => decode_words ignore_errors words
  end.

(** ** Buffer repair *)

(** [range(start, stop, step)] for a positive [step]. *)
Definition py_range (start stop step : nat) : list nat :=
  map (fun j => (start + j * step)%nat)
      (seq 0 ((stop - start + (step - 1)) / step)%nat).

(** [bytearray.insert(i, x)]: [x] goes before position [i], or at the end
    when [i] is beyond it. *)
Definition bytearray_insert (i : nat) (x : byte) (l : list byte) : list byte :=
  take i l ++ x :: drop i l.

(** The [for] loop of [fix_hitbuffer_data]: the range is built once, from
    the length the buffer has when the loop starts. *)
Definition insert_loop (data_raw : list byte) : list byte :=
  foldl (fun d i => bytearray_insert i x00 (bytearray_insert i x00 d))
        data_raw (py_range 1024 (length data_raw) 1024).

(** [while len(data_raw) % 4 != 0: data_raw.append(0)], at most [fuel]
    iterations; [None] means the fuel ran out. *)
Fixpoint pad_loop (fuel : nat) (data_raw : list byte) : option (list byte) :=
  if bool_decide ((length data_raw mod 4)%nat ≠ 0%nat) then
    match fuel with
    | O => None
    | S fuel' => pad_loop fuel' (data_raw ++ [x00])
    end
  else Some data_raw.

(** [fix_hitbuffer_data(data_raw)]; the padding loop gets fuel for three
    iterations, and [None] would mean that they were not enough. *)
Definition fix_hitbuffer_data (data_raw : list byte) : option (list byte) :=
  pad_loop 3 (insert_loop data_raw).

(** * Definitions for the properties *)

(** ** Computations over the iterator *)

(** What a computation leaves in the iterator is what it was given, less
    the words it took from the front. *)
Definition forward {A} (m : Words A) : Prop :=
  forall ws a ws', m ws = Some (a, ws') ->
    exists taken, ws = taken ++ ws'.

(** A computation that returns still returns, with the same value, when
    more words follow in the iterator. *)
Definition stable {A} (m : Words A) : Prop :=
  forall ws a ws' tail, m ws = Some (a, ws') ->
    m (ws ++ tail) = Some (a, ws' ++ tail).

(** ** Counting the words a Hit frame takes *)

(** The number of [next(words)] calls [adc_loop] makes: every second
    iteration fetches, starting with the second one when [adc_odd] is set
    and with the first one when it is not. *)
Definition adc_fetches (n : nat) (adc_odd : bool) : nat :=
  if adc_odd then (n / 2)%nat else ((n + 1) / 2)%nat.

(** The number of words [_decode_hit_tot_adcs] takes from the iterator
    after the word [multi], when it returns. *)
Definition fetches_beyond_multi (header multi : Z) (rest : list Z) : option nat :=
  match _decode_hit_tot_adcs header (multi :: rest) with
  | Some (_, rest') => Some (length rest - length rest')%nat
  | None => None
  end.

(** [ceil(n/2)], the count the specification gives. *)
Definition ceil_half (n : nat) : nat := ((n + 1) / 2)%nat.

(** ** Hit payload decoding as the specification words it *)

(** Bits [lo] to [hi] of [w], as the number they spell. *)
Definition bits (lo hi : Z) (w : Z) : Z := (w / 2 ^ lo) mod 2 ^ (hi - lo + 1).

(** The shift-register algorithm in the words of the specification: steps
    are numbered from 1; an odd step shifts the register right by 16 bits, an
    even step fetches a new word into it; either way the low 16 bits of the
    register are the current half, whose bits 12 to 15 are the channel index
    and whose bits 0 to 11 are the value entered in the mapping. *)
Fixpoint spec_shift_register (iterations step : nat) (register : Z)
    (ws : list Z) (channels : gmap Z Z) : option (gmap Z Z * list Z) :=
  match iterations with
  | O => Some (channels, ws)
  | S iterations' =>
      let continue register' ws' :=
        let half := register' mod 2 ^ 16 in
        spec_shift_register iterations' (S step) register' ws'
          (<[bits 12 15 half := bits 0 11 half]> channels) in
      if Nat.odd step then continue (register / 2 ^ 16) ws
      else match ws with
           | [] => None
           | w :: ws' => continue w ws'
           end
  end.

Definition spec_hit (H : Z) (ws : list Z) : option (RawFrame * list Z) :=
  match ws with
  | [] => None
  | M :: ws' =>
      let channel_count := bits 28 31 M in
      let tot := bits 16 27 M in
      match spec_shift_register (Z.to_nat channel_count) 1
              ((M mod 2 ^ 16) * 2 ^ 16) ws' ∅ with
      | Some (channels, ws'') => Some (RawFrameHit H tot channels, ws'')
      | None => None
      end
  end.

(** ** The values in effect at a frame *)

(** The values in effect after the frames [pre], read off the frames
    themselves: the year of the most recent PpsYear frame, the second of the
    most recent PpsSecond frame, bit 5 of the status bits of the most recent
    TriggerConfig frame, and -1, -1 and [false] where there is none. *)
Definition frame_year (f : RawFrame) : option Z :=
  match f with RawFramePpsYear y => Some y | _ => None end.

Definition frame_second (f : RawFrame) : option Z :=
  match f with RawFramePpsSecond s => Some s | _ => None end.

Definition frame_trigger (f : RawFrame) : option bool :=
  match f with
  | RawFrameTriggerConf status_bits _ _ => Some (Z.testbit status_bits 5)
  | _ => None
  end.

Definition most_recent {A} (field : RawFrame -> option A) (sentinel : A)
    (pre : list RawFrame) : A :=
  default sentinel (last (omap field pre)).

Definition year_in_effect : list RawFrame -> Z := most_recent frame_year (-1).
Definition second_in_effect : list RawFrame -> Z := most_recent frame_second (-1).
Definition trigger_in_effect : list RawFrame -> bool :=
  most_recent frame_trigger false.

(** A frame passes the channel check when it is no Hit frame or its keys
    are the canonical ones. *)
Definition frame_ok (keys : gset Z) (f : RawFrame) : bool :=
  match f with
  | RawFrameHit _ _ adc_data => bool_decide (dom adc_data = keys)
  | _ => true
  end.

(** The hits due for the frames [post] that come after the frames [pre]:
    one for each Hit frame with the canonical keys, built from the values in
    effect at its position. *)
Fixpoint emitted (keys : gset Z) (pre post : list RawFrame) : list Hit :=
  match post with
  | [] => []
  | f :: post' =>
      match f with
      | RawFrameHit offset tot adc_data =>
          if bool_decide (dom adc_data = keys) then
            [mkHit (year_in_effect pre)
                   (resolve_time_10th_ns (second_in_effect pre) offset)
                   adc_data tot (trigger_in_effect pre)]
          else []
      | _ => []
      end ++ emitted keys (pre ++ [f]) post'
  end.

(** The fold of the specification over the state
    [(year, second, cpu_trigger)]. *)
Definition spec_step (state : Z * Z * bool) (f : RawFrame) : Z * Z * bool :=
  let '(year, second, cpu_trigger) := state in
  match f with
  | RawFramePpsYear y => (y, second, cpu_trigger)
  | RawFramePpsSecond s => (year, s, cpu_trigger)
  | RawFrameTriggerConf status_bits _ _ => (year, second, Z.testbit status_bits 5)
  | RawFrameDataFormat _ _ => (year, second, cpu_trigger)
  | RawFrameHit _ _ _ => (year, second, cpu_trigger)
  end.

Definition is_hit (f : RawFrame) : bool :=
  match f with RawFrameHit _ _ _ => true | _ => false end.

(** ** The decoder run at a header *)

(** The decoder the loop body runs at [header], if any. *)
Definition frame_decoder (header : Z) : option (Words RawFrame) :=
  let frame_type := header ≫ 24 in
  match decoders !! frame_type with
  | Some decoder => Some (decoder header)
  | None =>
      if frame_type <? 0xdfffffff then Some (_decode_hit_tot_adcs header)
      else None
  end.

(** ** Repair: offsets, padding and the specification's loop *)

(** The number of bytes missing from [len] to the next multiple of 4. *)
Definition padding (len : nat) : nat := ((4 - len mod 4) mod 4)%nat.

(** Division facts for [lia]: quotient and remainder by 4 of the given
    number. *)
Ltac euclid4 n :=
  pose proof (Nat.div_mod_eq n 4);
  pose proof (Nat.mod_upper_bound n 4 ltac:(lia)).

(** Two zero bytes put in at offset [i]. *)
Definition insert_pair (d : list byte) (i : nat) : list byte :=
  take i d ++ [x00; x00] ++ drop i d.

(** The repair in the words of the specification: the offset advances by
    1024 for as long as it is within the buffer as it has grown so far. *)
Fixpoint spec_insertions (fuel offset : nat) (buffer : list byte) : list byte :=
  match fuel with
  | O => buffer
  | S fuel' =>
      if (offset <? length buffer)%nat then
        spec_insertions fuel' (offset + 1024)
          (take offset buffer ++ [x00; x00] ++ drop offset buffer)
      else buffer
  end.

Definition spec_repair (raw : list byte) : list byte :=
  let buffer := spec_insertions (length raw) 1024 raw in
  buffer ++ repeat x00 (padding (length buffer)).

(** ** Buffers to run the decoder on *)

(** The scenario of the specification: PpsYear 2024, PpsSecond 100, a
    TriggerConfig with status bit 5 set and offset 5, and a Hit frame with
    offset 1000, tot 50 and the channels 0 and 1. *)
Definition scenario_bytes : list byte :=
  [xe8; x07; x00; xe4;  x64; x00; x00; xe0;  x20; x00; x00; xe5;
   x05; x00; x00; x00;  xe8; x03; x00; x00;  x0a; x00; x32; x20;
   x14; x10; x00; x00].

Definition scenario_headers : list RawFrame :=
  [RawFramePpsYear 2024; RawFramePpsSecond 100; RawFrameTriggerConf 0x20 0 5].

Definition scenario_channels : gmap Z Z := {[0 := 10; 1 := 20]}.

Definition scenario_hit : Hit :=
  mkHit 2024 (100 * 10000000000 + 3472) scenario_channels 50 true.

(** Two Hit frames, the first with channel 0 and the second with channel 1. *)
Definition mismatch_bytes : list byte :=
  [xe8; x03; x00; x00;  x0a; x00; x32; x10;
   xd0; x07; x00; x00;  x14; x10; x32; x10].

(** A Hit frame with channel 0, then a Hit frame with channel count 2 that
    ends after its word [multi]. *)
Definition truncated_bytes : list byte :=
  [xe8; x03; x00; x00;  x0a; x00; x32; x10;
   xd0; x07; x00; x00;  x0a; x00; x32; x20].

(** A Hit frame with channel 0, a Hit frame with channel 1, and a Hit frame
    with channel count 2 that ends after its word [multi]. *)
Definition mismatch_truncated_bytes : list byte :=
  [xe8; x03; x00; x00;  x0a; x00; x32; x10;
   xd0; x07; x00; x00;  x14; x10; x32; x10;
   xb8; x0b; x00; x00;  x0a; x00; x32; x20].

Definition mismatch_words : list Z := [1000; 0x1032000a; 2000; 0x10321014].

Definition mismatch_truncated_words : list Z :=
  [1000; 0x1032000a; 2000; 0x10321014; 3000; 0x2032000a].


Definition first_hit : Hit :=
  mkHit (-1) (-1 * 10000000000 + 3472) {[0 := 10]} 50 false.

(** ** Ranges of the decoded fields *)

(** Channel indices are 4-bit and channel values 12-bit numbers. *)
Definition channels_in_range (adc_data : gmap Z Z) : Prop :=
  forall index value, adc_data !! index = Some value ->
    0 <= index < 16 /\ 0 <= value < 4096.

Definition frame_in_range (f : RawFrame) : Prop :=
  match f with
  | RawFramePpsYear year => 0 <= year < 2 ^ 16
  | RawFramePpsSecond second => 0 <= second < 2 ^ 26
  | RawFrameTriggerConf rc_status mode offset =>
      0 <= rc_status < 2 ^ 16 /\ 0 <= mode < 2 ^ 8 /\ 0 <= offset < 2 ^ 32
  | RawFrameDataFormat subtype detail_bits =>
      0 <= subtype < 2 ^ 8 /\ 0 <= detail_bits < 2 ^ 16
  | RawFrameHit offset tot adc_data =>
      0 <= offset < 2 ^ 32 /\ 0 <= tot < 2 ^ 12 /\
      channels_in_range adc_data /\ (size adc_data <= 15)%nat
  end.

Definition hit_in_range (h : Hit) : Prop :=
  -1 <= year h < 2 ^ 16 /\
  - 10000000000 <= ns_10th h < 2 ^ 63 /\
  channels_in_range (adc_data h) /\ (size (adc_data h) <= 15)%nat /\
  0 <= tot h < 2 ^ 12.

Definition word32 (w : Z) : Prop := 0 <= w < 2 ^ 32.

(** ** What a hit keeps of its frame *)

Definition frame_payload (f : RawFrame) : option (gmap Z Z * Z) :=
  match f with
  | RawFrameHit _ tot adc_data => Some (adc_data, tot)
  | _ => None
  end.

Definition hit_payload (h : Hit) : gmap Z Z * Z := (adc_data h, tot h).

Definition is_data_format (f : RawFrame) : bool :=
  match f with RawFrameDataFormat _ _ => true | _ => false end.

(** ** The packing of the channel entries *)

(** The two 16-bit halves of a word, low half first. *)
Definition word_halves (w : Z) : list Z := [Z.land w 0xffff; w ≫ 16].

(** A half entered in the channel mapping: bits 12 to 15 are the index,
    bits 0 to 11 the value. *)
Definition enter_half (adc_data : gmap Z Z) (half : Z) : gmap Z Z :=
  <[Z.land (half ≫ 12) 0xf := Z.land half 0xfff]> adc_data.

(** The halves [adc_loop] reads from its state on. *)
Definition pending_halves (adc_odd : bool) (adc_word : Z) (ws : list Z) : list Z :=
  (if adc_odd then [adc_word ≫ 16] else []) ++ flat_map word_halves ws.

(** ** Where the repair puts the bytes of its input *)

(** The number of pairs of zero bytes put in before the input byte at
    position [p], when [k] pairs are put in. *)
Definition pairs_before (k p : nat) : nat :=
  if (p <? 1024)%nat then 0%nat else Nat.min k ((p - 1024) / 1022 + 1).

(** ** Further words to run the decoder on *)

(** A Hit frame with offset 1000 and the one channel 0. *)
Definition one_hit_words : list Z := [1000; 0x1032000a].

(** The word [multi] of a Hit frame with three channels, tot 50 and the
    entry (0, 10), and the word with the entries (1, 5) and (2, 20). *)
Definition packed_multi : Z := 0x3032000a.
Definition packed_rest : list Z := [0x20141005].

(** * Properties *)

(** ** The word iterator only moves forward *)

Lemma forward_ret {A} (a : A) : forward (ret a).
Proof. intros ws b ws' [= <- <-]. by exists []. Qed.

Lemma forward_next_word : forward next_word.
Proof. intros [|w ws] a ws' [= <- <-]. by exists [w]. Qed.

Lemma forward_bind {A B} (m : Words A) (k : A -> Words B) :
  forward m -> (forall a, forward (k a)) -> forward (bind m k).
Proof.
  intros Hm Hk ws b ws'. unfold bind.
  destruct (m ws) as [[a ws1]|] eqn:E; [|done].
  intros Hb. destruct (Hm _ _ _ E) as [t1 ->].
  destruct (Hk _ _ _ _ Hb) as [t2 ->].
  exists (t1 ++ t2). by rewrite <- app_assoc.
Qed.

Lemma forward_adc_loop n adc_odd adc_word adc_data :
  forward (adc_loop n adc_odd adc_word adc_data).
Proof.
  revert adc_odd adc_word adc_data.
  induction n as [|n IH]; intros adc_odd adc_word adc_data; simpl.
  - apply forward_ret.
  - apply forward_bind; [|intros; apply IH].
    destruct adc_odd; [apply forward_ret | apply forward_next_word].
Qed.

Lemma forward_decode_hit header : forward (_decode_hit_tot_adcs header).
Proof.
  unfold _decode_hit_tot_adcs.
  apply forward_bind; [apply forward_next_word|]. intros multi.
  apply forward_bind; [apply forward_adc_loop|]. intros; apply forward_ret.
Qed.

Lemma decoders_lookup (k : Z) :
  decoders !! k =
    if decide (OBJECT_CODE_PPS_YEAR = k) then Some _decode_pps_year
    else if decide (OBJECT_CODE_PPS_SECOND = k) then Some _decode_pps_second
    else if decide (OBJECT_CODE_TRIG_CONFIG = k) then Some _decode_trigger_config
    else if decide (OBJECT_CODE_DATA_FORMAT = k) then Some _decode_data_format
    else None.
Proof. unfold decoders. by rewrite !lookup_insert, lookup_empty. Qed.

Lemma forward_decoders k decoder header :
  decoders !! k = Some decoder -> forward (decoder header).
Proof.
  rewrite decoders_lookup. repeat case_decide; intros [= <-]; try apply forward_ret.
  unfold _decode_trigger_config. apply forward_bind; [apply forward_next_word|].
  intros; apply forward_ret.
Qed.

(** ** The dispatch loop terminates *)

Lemma frames_loop_fuel fuel frames words :
  (length words <= fuel)%nat -> is_Some (frames_loop fuel frames words).
Proof.
  revert frames words. induction fuel as [|fuel IH]; intros frames [|header ws] Hlen.
  - by eexists.
  - cbn [length] in Hlen. lia.
  - by eexists.
  - cbn [length] in Hlen. cbn [frames_loop].
    assert (Hstep : forall (m : Words RawFrame), forward m ->
              is_Some (match m ws with
                       | Some (frame, words'') => frames_loop fuel (frames ++ [frame]) words''
                       | None => Some (frames, true)
                       end)).
    { intros m Hm. destruct (m ws) as [[fr ws']|] eqn:E; [|by eexists].
      destruct (Hm _ _ _ E) as [t ->]. apply IH. rewrite length_app in Hlen. lia. }
    destruct (decoders !! _) as [decoder|] eqn:Hd.
    + apply Hstep. by eapply forward_decoders.
    + destruct (_ <? _); [apply Hstep, forward_decode_hit | apply IH; lia].
Qed.

(** More fuel changes nothing once the loop has come to its end. *)
Lemma frames_loop_more_fuel fuel fuel' frames words r :
  frames_loop fuel frames words = Some r -> (fuel <= fuel')%nat ->
  frames_loop fuel' frames words = Some r.
Proof.
  revert fuel' frames words. induction fuel as [|fuel IH];
    intros fuel' frames [|header ws] Hr Hle.
  - destruct fuel'; exact Hr.
  - discriminate Hr.
  - destruct fuel'; exact Hr.
  - destruct fuel' as [|fuel']; [lia|].
    assert (Hle' : (fuel <= fuel')%nat) by lia.
    cbn [frames_loop] in Hr |- *.
    destruct (decoders !! _) as [decoder|].
    + destruct (decoder header ws) as [[fr ws']|]; [|exact Hr]. by apply IH.
    + destruct (_ <? _).
      * destruct (_decode_hit_tot_adcs header ws) as [[fr ws']|]; [|exact Hr].
        by apply IH.
      * by apply IH.
Qed.

Lemma decode_frames_terminates ignore_errors words :
  is_Some (decode_frames ignore_errors words).
Proof.
  unfold decode_frames.
  destruct (frames_loop_fuel (length words) [] words) as [[fr st] ->]; [lia|].
  by case_match.
Qed.

Lemma decode_hitbuffer_terminates data_raw ignore_errors :
  is_Some (decode_hitbuffer data_raw ignore_errors).
Proof.
  unfold decode_hitbuffer, decode_words. destruct (iter_unpack_I data_raw); [|done].
  destruct (decode_frames_terminates ignore_errors l) as [[fr|e] ->]; done.
Qed.

(** ** Hit payload: how many words the decoder takes *)

Lemma adc_fetches_S_odd n : adc_fetches (S n) true = adc_fetches n false.
Proof. unfold adc_fetches. by replace (n + 1)%nat with (S n) by lia. Qed.

Lemma adc_fetches_S_even n : adc_fetches (S n) false = S (adc_fetches n true).
Proof.
  unfold adc_fetches. replace (S n + 1)%nat with (n + 1 * 2)%nat by lia.
  rewrite Nat.div_add by lia. lia.
Qed.

Lemma adc_loop_enough n : forall adc_odd adc_word adc_data ws,
  (adc_fetches n adc_odd <= length ws)%nat ->
  exists adc_data',
    adc_loop n adc_odd adc_word adc_data ws
      = Some (adc_data', drop (adc_fetches n adc_odd) ws).
Proof.
  induction n as [|n IH]; intros adc_odd adc_word adc_data ws Hlen.
  - exists adc_data. destruct adc_odd; reflexivity.
  - destruct adc_odd.
    + rewrite adc_fetches_S_odd in *. cbn [adc_loop]. unfold bind, ret.
      apply IH, Hlen.
    + rewrite adc_fetches_S_even in *. cbn [adc_loop]. unfold bind, next_word.
      destruct ws as [|w ws]; [cbn [length] in Hlen; lia|].
      cbn [drop]. apply IH. cbn [length negb] in *. lia.
Qed.

Lemma adc_loop_short n : forall adc_odd adc_word adc_data ws,
  (length ws < adc_fetches n adc_odd)%nat ->
  adc_loop n adc_odd adc_word adc_data ws = None.
Proof.
  induction n as [|n IH]; intros adc_odd adc_word adc_data ws Hlen.
  - destruct adc_odd; cbn in Hlen; lia.
  - destruct adc_odd.
    + rewrite adc_fetches_S_odd in *. cbn [adc_loop]. unfold bind, ret.
      apply IH, Hlen.
    + rewrite adc_fetches_S_even in *. cbn [adc_loop]. unfold bind, next_word.
      destruct ws as [|w ws]; [reflexivity|].
      apply IH. cbn [length negb] in *. lia.
Qed.

Lemma adc_count_of_range multi : 0 <= adc_count_of multi <= 15.
Proof.
  unfold adc_count_of.
  change (Z.land (multi ≫ 28) 0xf) with (Z.land (multi ≫ 28) (Z.ones 4)).
  rewrite Z.land_ones by lia. change (2 ^ 4) with 16.
  pose proof (Z.mod_pos_bound (multi ≫ 28) 16). lia.
Qed.

Lemma decode_hit_enough header multi rest :
  let n := Z.to_nat (adc_count_of multi) in
  (n / 2 <= length rest)%nat ->
  exists adc_data,
    _decode_hit_tot_adcs header (multi :: rest)
      = Some (RawFrameHit header (Z.land (multi ≫ 16) 0xfff) adc_data,
              drop (n / 2) rest).
Proof.
  intros n Hlen. unfold _decode_hit_tot_adcs, bind at 1, next_word. unfold bind.
  destruct (adc_loop_enough n true (Z.land multi 0xffff ≪ 16) ∅ rest Hlen)
    as [adc_data Hloop].
  fold n. rewrite Hloop. by exists adc_data.
Qed.

Lemma decode_hit_short header multi rest :
  (length rest < Z.to_nat (adc_count_of multi) / 2)%nat ->
  _decode_hit_tot_adcs header (multi :: rest) = None.
Proof.
  intros Hlen. unfold _decode_hit_tot_adcs, bind at 1, next_word. unfold bind.
  by rewrite (adc_loop_short _ true _ ∅ rest Hlen).
Qed.

(** C1, amended.  For every Hit frame with encoded channel count [n]
    (0 to 15), decoding takes the word [multi] and then exactly
    [floor(n/2)] further words from the iterator: it returns, leaving the
    words after those, when that many words are there, and raises
    [StopIteration] when there are fewer or when [multi] itself is
    missing. *)
Theorem hit_fetches_floor_half (header multi : Z) (rest : list Z) :
  let n := Z.to_nat (adc_count_of multi) in
  (n <= 15)%nat /\
  _decode_hit_tot_adcs header [] = None /\
  match _decode_hit_tot_adcs header (multi :: rest) with
  | Some (_, rest') =>
      (n / 2 <= length rest)%nat /\ rest' = drop (n / 2) rest /\
      fetches_beyond_multi header multi rest = Some (n / 2)%nat
  | None => (length rest < n / 2)%nat
  end.
Proof.
  intros n. split; [|split; [reflexivity|]].
  { pose proof (adc_count_of_range multi). lia. }
  destruct (decide (n / 2 <= length rest)%nat) as [Hlen|Hlen].
  - destruct (decode_hit_enough header multi rest Hlen) as [adc_data Heq].
    unfold fetches_beyond_multi. fold n in Heq. rewrite Heq.
    repeat split; [done|]. f_equal. rewrite length_drop. lia.
  - rewrite decode_hit_short; fold n; lia.
Qed.

(** C1 as stated fails: a Hit frame with channel count 1 takes no word
    beyond [multi], where [ceil(1/2)] is 1. *)
Lemma hit_fetches_not_ceil_half :
  Z.to_nat (adc_count_of 0x1032000a) = 1%nat /\
  fetches_beyond_multi 1000 0x1032000a [7] = Some 0%nat /\
  fetches_beyond_multi 1000 0x1032000a [7]
    <> Some (ceil_half (Z.to_nat (adc_count_of 0x1032000a))).
Proof. by vm_compute. Qed.

(** ** Hit payload: the fields and the channel mapping *)

Lemma land_shiftr_bits (w lo k : Z) :
  0 <= lo -> 0 < k ->
  Z.land (w ≫ lo) (Z.ones k) = bits lo (lo + k - 1) w.
Proof.
  intros Hlo Hk. unfold bits. rewrite Z.land_ones, Z.shiftr_div_pow2 by lia.
  do 2 f_equal. lia.
Qed.

Lemma index_of_half (w : Z) : Z.land (w ≫ 12) 0xf = bits 12 15 (w mod 2 ^ 16).
Proof.
  change (Z.land (w ≫ 12) 0xf) with (Z.land (w ≫ 12) (Z.ones 4)).
  rewrite (land_shiftr_bits w 12 4) by lia. unfold bits.
  change (2 ^ 12) with 4096. change (2 ^ 16) with 65536.
  change (2 ^ (12 + 4 - 1 - 12 + 1)) with 16. change (2 ^ (15 - 12 + 1)) with 16.
  Z.div_mod_to_equations. lia.
Qed.

Lemma value_of_half (w : Z) : Z.land w 0xfff = bits 0 11 (w mod 2 ^ 16).
Proof.
  change (Z.land w 0xfff) with (Z.land w (Z.ones 12)).
  rewrite Z.land_ones by lia. unfold bits.
  change (2 ^ 0) with 1. change (2 ^ 16) with 65536.
  change (2 ^ (11 - 0 + 1)) with 4096. change (2 ^ 12) with 4096.
  Z.div_mod_to_equations. lia.
Qed.

Lemma adc_loop_shift_register n : forall step adc_word adc_data ws,
  adc_loop n (Nat.odd step) adc_word adc_data ws
    = spec_shift_register n step adc_word ws adc_data.
Proof.
  induction n as [|n IH]; intros step adc_word adc_data ws; [reflexivity|].
  cbn [adc_loop spec_shift_register]. unfold bind.
  assert (Hnext : negb (Nat.odd step) = Nat.odd (S step)).
  { by rewrite Nat.odd_succ, Nat.negb_odd. }
  destruct (Nat.odd step) eqn:Hodd.
  - unfold ret. rewrite Hnext, IH, index_of_half, value_of_half.
    by rewrite Z.shiftr_div_pow2 by lia.
  - unfold next_word. destruct ws as [|w ws]; [reflexivity|].
    by rewrite Hnext, IH, index_of_half, value_of_half.
Qed.

(** C2.  For every Hit frame the header word is the offset as it is, the
    channel count is bits 28 to 31 and tot is bits 16 to 27 of the word
    [M] that follows, and the channel mapping is what the shift-register
    algorithm of the specification computes from [(M & 0xFFFF) << 16] and
    the words after [M], a later entry for an index replacing an earlier
    one; the decoder fails exactly when that algorithm runs out of words. *)
Theorem decode_hit_is_shift_register (H : Z) (ws : list Z) :
  _decode_hit_tot_adcs H ws = spec_hit H ws.
Proof.
  destruct ws as [|M ws]; [reflexivity|].
  unfold _decode_hit_tot_adcs, spec_hit, bind at 1, next_word. unfold bind, ret.
  unfold adc_count_of.
  change (Z.land (M ≫ 28) 0xf) with (Z.land (M ≫ 28) (Z.ones 4)).
  change (Z.land (M ≫ 16) 0xfff) with (Z.land (M ≫ 16) (Z.ones 12)).
  change (Z.land M 0xffff) with (Z.land M (Z.ones 16)).
  rewrite (land_shiftr_bits M 28 4), (land_shiftr_bits M 16 12) by lia.
  rewrite Z.land_ones, Z.shiftl_mul_pow2 by lia.
  change true with (Nat.odd 1). rewrite adc_loop_shift_register.
  reflexivity.
Qed.

(** ** Dispatch on the top byte *)

Lemma top_byte_range (header : Z) :
  0 <= header < 2 ^ 32 -> 0 <= header ≫ 24 <= 255.
Proof.
  intros Hh. rewrite Z.shiftr_div_pow2 by lia.
  change (2 ^ 32) with 4294967296 in Hh. change (2 ^ 24) with 16777216.
  Z.div_mod_to_equations. lia.
Qed.

(** C4.  One iteration of the dispatch loop at a header word of 32 bits:
    the top byte selects the decoder by its exact value, 0xE4 PpsYear, 0xE0
    PpsSecond, 0xE5 TriggerConfig, 0xE6 DataFormat, and every other value
    (0xE7, 0xF0 to 0xFF and 0xE1 to 0xE3 among them) goes to the Hit
    decoder.  The PpsYear, PpsSecond and DataFormat decoders leave the
    iterator as it is; the TriggerConfig decoder takes exactly one word, the
    offset, and the loop is left by [StopIteration] when it is missing. *)
Theorem dispatch_by_top_byte (fuel : nat) (frames : list RawFrame)
    (header : Z) (ws : list Z) :
  0 <= header < 2 ^ 32 ->
  let frame_type := header ≫ 24 in
  let continue frame ws' := frames_loop fuel (frames ++ [frame]) ws' in
  0 <= frame_type <= 255 /\
  frames_loop (S fuel) frames (header :: ws) =
    if decide (frame_type = 0xE4) then
      continue (RawFramePpsYear (Z.land header 0xFFFF)) ws
    else if decide (frame_type = 0xE0) then
      continue (RawFramePpsSecond (Z.land header 0x03ffffff)) ws
    else if decide (frame_type = 0xE5) then
      match ws with
      | offset :: ws' =>
          continue (RawFrameTriggerConf (Z.land header 0xffff)
                      (Z.land (header ≫ 16) 0xff) offset) ws'
      | [] => Some (frames, true)
      end
    else if decide (frame_type = 0xE6) then
      continue (RawFrameDataFormat (Z.land (header ≫ 16) 0xff)
                  (Z.land header 0xffff)) ws
    else
      match _decode_hit_tot_adcs header ws with
      | Some (frame, ws') => continue frame ws'
      | None => Some (frames, true)
      end.
Proof.
  intros Hh frame_type continue.
  pose proof (top_byte_range header Hh) as Hb. fold frame_type in Hb.
  split; [exact Hb|].
  cbn [frames_loop]. fold frame_type. rewrite decoders_lookup.
  unfold OBJECT_CODE_PPS_YEAR, OBJECT_CODE_PPS_SECOND, OBJECT_CODE_TRIG_CONFIG,
    OBJECT_CODE_DATA_FORMAT.
  destruct (decide (0xe4 = frame_type)) as [<-|Hy].
  { reflexivity. }
  destruct (decide (frame_type = 0xE4)) as [->|_]; [by destruct Hy|].
  destruct (decide (0xe0 = frame_type)) as [<-|Hs].
  { reflexivity. }
  destruct (decide (frame_type = 0xE0)) as [->|_]; [by destruct Hs|].
  destruct (decide (0xe5 = frame_type)) as [<-|Ht].
  { destruct ws; reflexivity. }
  destruct (decide (frame_type = 0xE5)) as [->|_]; [by destruct Ht|].
  destruct (decide (0xe6 = frame_type)) as [<-|Hd].
  { reflexivity. }
  destruct (decide (frame_type = 0xE6)) as [->|_]; [by destruct Hd|].
  assert (Hlt : (frame_type <? 0xdfffffff) = true) by (apply Z.ltb_lt; lia).
  rewrite Hlt. reflexivity.
Qed.

(** ** The accumulator *)

Lemma most_recent_nil {A} (field : RawFrame -> option A) sentinel :
  most_recent field sentinel [] = sentinel.
Proof. reflexivity. Qed.

Lemma most_recent_snoc {A} (field : RawFrame -> option A) sentinel pre f :
  most_recent field sentinel (pre ++ [f])
    = match field f with
      | Some a => a
      | None => most_recent field sentinel pre
      end.
Proof.
  unfold most_recent. rewrite omap_app. cbn [omap list_omap].
  destruct (field f) as [a|].
  - by rewrite last_snoc.
  - by rewrite app_nil_r.
Qed.

Lemma cpu_trigger_is_bit_5 (rc_status : Z) :
  negb (Z.land rc_status STATUS_CPUTRIG_ACTIVE =? 0) = Z.testbit rc_status 5.
Proof.
  assert (Hbit : Z.testbit (Z.land rc_status STATUS_CPUTRIG_ACTIVE) 5
                 = Z.testbit rc_status 5).
  { rewrite Z.land_spec. change STATUS_CPUTRIG_ACTIVE with (2 ^ 5).
    rewrite Z.pow2_bits_true by lia. apply andb_true_r. }
  destruct (Z.eqb_spec (Z.land rc_status STATUS_CPUTRIG_ACTIVE) 0) as [H0|Hn0].
  - rewrite H0 in Hbit. by rewrite <- Hbit.
  - cbn [negb]. rewrite <- Hbit.
    destruct (Z.testbit (Z.land rc_status STATUS_CPUTRIG_ACTIVE) 5) eqn:E;
      [done|].
    destruct Hn0. apply Z.bits_inj'. intros n Hn. rewrite Z.bits_0.
    destruct (decide (n = 5)) as [->|Hne]; [exact E|].
    rewrite Z.land_spec. change STATUS_CPUTRIG_ACTIVE with (2 ^ 5).
    rewrite Z.pow2_bits_false by lia. apply andb_false_r.
Qed.

(** The loop that combines the frames, entered after the frames [pre] with
    the values in effect there: it yields one hit per frame that passes the
    channel check, or stops at a frame that does not when errors are not
    ignored. *)
Lemma hits_loop_emitted ignore_errors keys post : forall pre hits,
  hits_loop ignore_errors keys post
      (year_in_effect pre) (second_in_effect pre) (trigger_in_effect pre) hits
    = if ignore_errors || forallb (frame_ok keys) post
      then Ok (hits ++ emitted keys pre post)
      else Raise InconsistentChannels.
Proof.
  induction post as [|f post IH]; intros pre hits.
  - cbn. rewrite orb_true_r. by rewrite app_nil_r.
  - specialize (IH (pre ++ [f])).
    unfold year_in_effect, second_in_effect, trigger_in_effect in IH.
    rewrite !most_recent_snoc in IH.
    cbn [hits_loop emitted forallb].
    destruct f as [y|s|rc mode off|sub det|off t adc];
      cbn [frame_year frame_second frame_trigger frame_ok] in *.
    + apply IH.
    + apply IH.
    + rewrite cpu_trigger_is_bit_5. apply IH.
    + apply IH.
    + destruct (decide (dom adc = keys)) as [Heq|Hne].
      * rewrite (bool_decide_eq_false_2 (dom adc ≠ keys)) by tauto.
        rewrite (bool_decide_eq_true_2 (dom adc = keys)) by done.
        cbn [andb]. rewrite IH. by rewrite <- app_assoc.
      * rewrite (bool_decide_eq_true_2 (dom adc ≠ keys)) by done.
        rewrite (bool_decide_eq_false_2 (dom adc = keys)) by done.
        cbn [andb app]. rewrite orb_false_r.
        destruct ignore_errors; [|reflexivity].
        cbn [negb]. rewrite IH. reflexivity.
Qed.

(** What the part of [decode_hitbuffer] after the [try] returns. *)
Lemma combine_frames_emitted ignore_errors frames :
  combine_frames ignore_errors frames =
    match first_hit_adc_keys frames with
    | None => Raise NoHitFrame
    | Some keys =>
        if ignore_errors || forallb (frame_ok keys) frames
        then Ok (emitted keys [] frames)
        else Raise InconsistentChannels
    end.
Proof.
  unfold combine_frames. destruct (first_hit_adc_keys frames) as [keys|]; [|done].
  apply (hits_loop_emitted ignore_errors keys frames [] []).
Qed.

Lemma emitted_app keys post1 : forall pre post2,
  emitted keys pre (post1 ++ post2)
    = emitted keys pre post1 ++ emitted keys (pre ++ post1) post2.
Proof.
  induction post1 as [|f post1 IH]; intros pre post2.
  - by rewrite app_nil_r.
  - cbn [app emitted]. rewrite IH, <- !app_assoc. reflexivity.
Qed.

Lemma first_hit_adc_keys_app pre post :
  first_hit_adc_keys (pre ++ post)
    = match first_hit_adc_keys pre with
      | Some keys => Some keys
      | None => first_hit_adc_keys post
      end.
Proof.
  induction pre as [|f pre IH].
  - cbn [app first_hit_adc_keys]. by destruct (first_hit_adc_keys post).
  - destruct f; cbn [app first_hit_adc_keys]; done.
Qed.

Lemma first_hit_adc_keys_split frames keys :
  first_hit_adc_keys frames = Some keys ->
  exists pre offset tot adc_data post,
    frames = pre ++ RawFrameHit offset tot adc_data :: post /\
    first_hit_adc_keys pre = None /\ dom adc_data = keys.
Proof.
  induction frames as [|f frames IH]; [done|].
  destruct f as [y|s|rc mode off|sub det|off t adc]; cbn [first_hit_adc_keys];
    try (intros Hk; destruct (IH Hk) as (pre & o' & t' & a' & post & -> & Hpre & Hdom);
         eexists (_ :: pre), o', t', a', post; by repeat split).
  intros [= <-]. by exists [], off, t, adc, frames.
Qed.

Lemma emitted_no_hit keys post : forall pre,
  first_hit_adc_keys post = None -> emitted keys pre post = [].
Proof.
  induction post as [|f post IH]; intros pre Hnone; [done|].
  destruct f; cbn [first_hit_adc_keys emitted app] in *; try by apply IH.
  done.
Qed.

(** Frames that set no value leave the values in effect alone, so the hits
    due afterwards do not depend on them. *)
Lemma emitted_same_state keys post : forall pre1 pre2,
  year_in_effect pre1 = year_in_effect pre2 ->
  second_in_effect pre1 = second_in_effect pre2 ->
  trigger_in_effect pre1 = trigger_in_effect pre2 ->
  emitted keys pre1 post = emitted keys pre2 post.
Proof.
  induction post as [|f post IH]; intros pre1 pre2 Hy Hs Ht; [done|].
  cbn [emitted]. rewrite Hy, Hs, Ht. f_equal.
  unfold year_in_effect, second_in_effect, trigger_in_effect in *.
  apply IH; rewrite !most_recent_snoc; by case_match.
Qed.

Lemma spec_fold_in_effect (pre : list RawFrame) :
  foldl spec_step (-1, -1, false) pre
    = (year_in_effect pre, second_in_effect pre, trigger_in_effect pre).
Proof.
  induction pre as [|f pre IH] using rev_ind; [reflexivity|].
  rewrite foldl_snoc, IH.
  unfold year_in_effect, second_in_effect, trigger_in_effect.
  rewrite !most_recent_snoc. by destruct f.
Qed.

(** C5.  The left-to-right fold of the specification from (-1, -1, false)
    has, after any frames, the year of the most recent PpsYear frame, the
    second of the most recent PpsSecond frame and bit 5 of the status bits
    of the most recent TriggerConfig frame, with the initial -1, -1 and
    [false] where there was none; and a Hit frame with the canonical keys is
    turned into a hit that carries exactly these values for the frames before
    it, placed after the hits of the frames before it and before the hits of
    the frames after it. *)
Theorem hit_uses_state_in_effect (ignore_errors : bool)
    (pre post : list RawFrame) (offset tot : Z) (adc_data : gmap Z Z)
    (hits : list Hit) :
  let frame := RawFrameHit offset tot adc_data in
  let keys := dom adc_data in
  first_hit_adc_keys (pre ++ frame :: post) = Some keys ->
  combine_frames ignore_errors (pre ++ frame :: post) = Ok hits ->
  foldl spec_step (-1, -1, false) pre
    = (year_in_effect pre, second_in_effect pre, trigger_in_effect pre) /\
  hits = emitted keys [] pre
         ++ mkHit (year_in_effect pre)
                  (resolve_time_10th_ns (second_in_effect pre) offset)
                  adc_data tot (trigger_in_effect pre)
         :: emitted keys (pre ++ [frame]) post.
Proof.
  intros frame keys Hfirst Hok. split; [apply spec_fold_in_effect|].
  rewrite combine_frames_emitted, Hfirst in Hok.
  destruct (_ || _); [|discriminate Hok].
  injection Hok as <-. rewrite emitted_app. subst frame keys.
  cbn [emitted app]. by rewrite bool_decide_eq_true_2.
Qed.

(** C6.  For all integers [second] and [offset] the timestamp is
    [second * 10_000_000_000 + floor(offset * 125 / 36)], an integer
    computed without rounding: the second summand is the one integer [q]
    with [36 q <= 125 offset < 36 (q + 1)]; and this is the timestamp of the
    hit the combining loop appends for a Hit frame with the canonical keys. *)
Theorem timestamp_tenths_ns_exact (second offset : Z) :
  resolve_time_10th_ns second offset
    = second * 10000000000 + (offset * 125) / 36 /\
  (forall q : Z,
     36 * q <= offset * 125 < 36 * (q + 1) <->
     resolve_time_10th_ns second offset = second * 10000000000 + q) /\
  (forall ignore_errors year cpu_trigger tot adc_data hits,
     hits_loop ignore_errors (dom adc_data)
        [RawFrameHit offset tot adc_data] year second cpu_trigger hits
      = Ok (hits ++ [mkHit year (second * 10000000000 + (offset * 125) / 36)
                       adc_data tot cpu_trigger])).
Proof.
  unfold resolve_time_10th_ns, int_1e10. split; [reflexivity|split].
  - intros q. split.
    + intros Hq. f_equal. symmetry. apply Z.div_unique with (offset * 125 - 36 * q); lia.
    + intros Heq. assert (q = offset * 125 / 36) as -> by lia.
      pose proof (Z.mul_div_le (offset * 125) 36).
      pose proof (Z.mul_succ_div_gt (offset * 125) 36). lia.
  - intros. cbn [hits_loop]. by case_bool_decide.
Qed.

(** ** Errors of the accumulator *)

Lemma frame_ok_mismatch keys pre offset tot adc_data post :
  dom adc_data ≠ keys ->
  forallb (frame_ok keys) (pre ++ RawFrameHit offset tot adc_data :: post) = false.
Proof.
  intros Hne. rewrite forallb_app. cbn [forallb frame_ok].
  rewrite (bool_decide_eq_false_2 _ Hne). cbn [andb]. apply andb_false_r.
Qed.

Lemma first_hit_before_mismatch keys pre offset tot adc_data post :
  first_hit_adc_keys (pre ++ RawFrameHit offset tot adc_data :: post) = Some keys ->
  dom adc_data ≠ keys ->
  first_hit_adc_keys pre = Some keys.
Proof.
  rewrite first_hit_adc_keys_app. destruct (first_hit_adc_keys pre); [done|].
  cbn [first_hit_adc_keys]. by intros [= ->] Hne.
Qed.

(** C7, amended.  Let the frames the dispatch loop collects from a buffer
    have a Hit frame whose key set differs from that of the first Hit frame.
    With [ignore_errors] set the decode returns the hits of the other
    frames, as if that frame were not in the sequence: the hits of the
    frames before it, then the hits of the frames after it with the values
    in effect before it.  In strict mode the decode fails: with
    [InconsistentChannels] when the loop came to the end of the words, and
    with [IncompleteFrame] when the buffer ends inside a frame, since that
    error is raised before the frames are combined. *)
Theorem mismatched_hit_dropped_or_fatal (data_raw : list byte)
    (words : list Z) (stopped : bool) (keys : gset Z)
    (pre post : list RawFrame) (offset tot : Z) (adc_data : gmap Z Z) :
  let frames := pre ++ RawFrameHit offset tot adc_data :: post in
  iter_unpack_I data_raw = Some words ->
  frames_loop (length words) [] words = Some (frames, stopped) ->
  first_hit_adc_keys frames = Some keys ->
  dom adc_data ≠ keys ->
  decode_hitbuffer data_raw true
    = Some (Ok (emitted keys [] pre ++ emitted keys pre post)) /\
  decode_hitbuffer data_raw false
    = Some (Raise (if stopped then IncompleteFrame else InconsistentChannels)) /\
  combine_frames false frames = Raise InconsistentChannels /\
  combine_frames true frames = combine_frames true (pre ++ post).
Proof.
  intros frames Hun Hloop Hfirst Hne.
  assert (Hpre := first_hit_before_mismatch _ _ _ _ _ _ Hfirst Hne).
  assert (Hdrop : emitted keys [] frames
                  = emitted keys [] pre ++ emitted keys pre post).
  { unfold frames. rewrite emitted_app. cbn [emitted app].
    rewrite (bool_decide_eq_false_2 _ Hne). cbn [app]. f_equal.
    unfold year_in_effect, second_in_effect, trigger_in_effect.
    apply emitted_same_state;
      unfold year_in_effect, second_in_effect, trigger_in_effect;
      by rewrite most_recent_snoc. }
  assert (Hcomb : forall ign, combine_frames ign frames =
            if ign then Ok (emitted keys [] pre ++ emitted keys pre post)
            else Raise InconsistentChannels).
  { intros ign. rewrite combine_frames_emitted, Hfirst.
    unfold frames at 1. rewrite (frame_ok_mismatch _ _ _ _ _ _ Hne), orb_false_r.
    destruct ign; [by rewrite Hdrop | done]. }
  split; [|split; [|split]].
  - unfold decode_hitbuffer, decode_words, decode_frames.
    rewrite Hun, Hloop, andb_false_r. by rewrite Hcomb.
  - unfold decode_hitbuffer, decode_words, decode_frames.
    rewrite Hun, Hloop, andb_true_r. destruct stopped; [done|].
    by rewrite Hcomb.
  - apply (Hcomb false).
  - rewrite (Hcomb true), combine_frames_emitted, first_hit_adc_keys_app, Hpre.
    cbn [orb]. by rewrite emitted_app.
Qed.

(** C7 as stated fails: a buffer with a Hit frame with channel 0, a Hit
    frame with channel 1 and a third Hit frame that is cut off contains a
    Hit frame whose keys differ from those of the first, and the strict
    decode fails with [IncompleteFrame], not with [InconsistentChannels]. *)
Lemma mismatched_and_truncated_is_incomplete :
  iter_unpack_I mismatch_truncated_bytes = Some mismatch_truncated_words /\
  frames_loop (length mismatch_truncated_words) [] mismatch_truncated_words
    = Some ([RawFrameHit 1000 50 {[0 := 10]}; RawFrameHit 2000 50 {[1 := 20]}],
            true) /\
  dom ({[1 := 20]} : gmap Z Z) ≠ dom ({[0 := 10]} : gmap Z Z) /\
  decode_hitbuffer mismatch_truncated_bytes false = Some (Raise IncompleteFrame) /\
  decode_hitbuffer mismatch_truncated_bytes false
    ≠ Some (Raise InconsistentChannels).
Proof.
  split; [by vm_compute|]. split; [by vm_compute|].
  split; [apply (bool_decide_unpack _); by vm_compute|].
  split; [by vm_compute|]. by vm_compute.
Qed.

Lemma first_hit_adc_keys_none frames :
  first_hit_adc_keys frames = None <-> forallb (fun f => negb (is_hit f)) frames = true.
Proof.
  induction frames as [|f frames IH]; [done|].
  destruct f; cbn [first_hit_adc_keys forallb is_hit negb andb]; done.
Qed.


(** C10.  Whenever the decode returns, in either mode, the list of hits is
    not empty: the frames have a first Hit frame, its keys are the canonical
    ones, and the first hit returned is the one made from it. *)
Theorem returned_hits_nonempty (data_raw : list byte) (ignore_errors : bool)
    (hits : list Hit) :
  decode_hitbuffer data_raw ignore_errors = Some (Ok hits) ->
  hits ≠ [] /\
  exists words frames pre offset tot adc_data post,
    iter_unpack_I data_raw = Some words /\
    decode_frames ignore_errors words = Some (Ok frames) /\
    frames = pre ++ RawFrameHit offset tot adc_data :: post /\
    forallb (fun f => negb (is_hit f)) pre = true /\
    first_hit_adc_keys frames = Some (dom adc_data) /\
    head hits = Some (mkHit (year_in_effect pre)
                        (resolve_time_10th_ns (second_in_effect pre) offset)
                        adc_data tot (trigger_in_effect pre)).
Proof.
  unfold decode_hitbuffer, decode_words.
  destruct (iter_unpack_I data_raw) as [words|]; [|discriminate].
  destruct (decode_frames ignore_errors words) as [[frames|e]|] eqn:Hfr;
    [|discriminate..].
  intros [= Hok]. rewrite combine_frames_emitted in Hok.
  destruct (first_hit_adc_keys frames) as [keys|] eqn:Hfirst; [|discriminate].
  destruct (_ || _); [|discriminate]. injection Hok as <-.
  destruct (first_hit_adc_keys_split _ _ Hfirst)
    as (pre & offset & tot & adc & post & -> & Hpre & <-).
  assert (Hhits : emitted (dom adc) [] (pre ++ RawFrameHit offset tot adc :: post)
            = mkHit (year_in_effect pre)
                (resolve_time_10th_ns (second_in_effect pre) offset)
                adc tot (trigger_in_effect pre)
              :: emitted (dom adc) (pre ++ [RawFrameHit offset tot adc]) post).
  { rewrite emitted_app, (emitted_no_hit _ _ _ Hpre). cbn [emitted app].
    by rewrite bool_decide_eq_true_2. }
  rewrite Hhits. split; [done|].
  exists words, (pre ++ RawFrameHit offset tot adc :: post), pre, offset, tot, adc, post.
  repeat split; try done. by apply first_hit_adc_keys_none.
Qed.

(** ** Truncated buffers *)

Lemma stable_ret {A} (a : A) : stable (ret a).
Proof. by intros ws b ws' tail [= <- <-]. Qed.

Lemma stable_next_word : stable next_word.
Proof. by intros [|w ws] a ws' tail [= <- <-]. Qed.

Lemma stable_bind {A B} (m : Words A) (k : A -> Words B) :
  stable m -> (forall a, stable (k a)) -> stable (bind m k).
Proof.
  intros Hm Hk ws b ws' tail. unfold bind.
  destruct (m ws) as [[a ws1]|] eqn:E; [|done].
  intros Hb. rewrite (Hm _ _ _ tail E). by apply Hk.
Qed.

Lemma stable_adc_loop n : forall adc_odd adc_word adc_data,
  stable (adc_loop n adc_odd adc_word adc_data).
Proof.
  induction n as [|n IH]; intros adc_odd adc_word adc_data; cbn [adc_loop].
  - apply stable_ret.
  - apply stable_bind; [|intros; apply IH].
    destruct adc_odd; [apply stable_ret | apply stable_next_word].
Qed.

Lemma stable_decode_hit header : stable (_decode_hit_tot_adcs header).
Proof.
  unfold _decode_hit_tot_adcs.
  apply stable_bind; [apply stable_next_word|]. intros multi.
  apply stable_bind; [apply stable_adc_loop|]. intros; apply stable_ret.
Qed.

Lemma stable_decoders k decoder header :
  decoders !! k = Some decoder -> stable (decoder header).
Proof.
  rewrite decoders_lookup. repeat case_decide; intros [= <-]; try apply stable_ret.
  unfold _decode_trigger_config. apply stable_bind; [apply stable_next_word|].
  intros; apply stable_ret.
Qed.

Lemma frames_loop_step fuel frames header ws :
  frames_loop (S fuel) frames (header :: ws) =
    match frame_decoder header with
    | Some m =>
        match m ws with
        | Some (frame, ws') => frames_loop fuel (frames ++ [frame]) ws'
        | None => Some (frames, true)
        end
    | None => frames_loop fuel frames ws
    end.
Proof.
  cbn [frames_loop]. unfold frame_decoder.
  destruct (decoders !! _); [done|]. by destruct (_ <? _).
Qed.

Lemma frame_decoder_stable header m : frame_decoder header = Some m -> stable m.
Proof.
  unfold frame_decoder. destruct (decoders !! _) as [decoder|] eqn:Hd.
  - intros [= <-]. by eapply stable_decoders.
  - destruct (_ <? _); [|done]. intros [= <-]. apply stable_decode_hit.
Qed.

(** The loop run over words that decode completely, followed by more
    words, is the loop run over those further words with the frames of the
    first part already collected. *)
Lemma frames_loop_app fuel : forall frames0 consumed frames tail fuel' r,
  frames_loop fuel frames0 consumed = Some (frames, false) ->
  frames_loop fuel' frames tail = Some r ->
  frames_loop (fuel + fuel') frames0 (consumed ++ tail) = Some r.
Proof.
  induction fuel as [|fuel IH]; intros frames0 consumed frames tail fuel' r Hc Ht.
  - destruct consumed as [|header ws]; [|discriminate Hc].
    injection Hc as <-. exact Ht.
  - destruct consumed as [|header ws].
    + injection Hc as <-. cbn [app].
      apply (frames_loop_more_fuel fuel'); [exact Ht | lia].
    + cbn [app Nat.add]. rewrite frames_loop_step in Hc |- *.
      destruct (frame_decoder header) as [m|] eqn:Hm.
      * destruct (m ws) as [[frame ws']|] eqn:E; [|discriminate Hc].
        rewrite (frame_decoder_stable _ _ Hm _ _ _ tail E). by eapply IH.
      * by eapply IH.
Qed.

(** A frame whose decoder runs out of words makes the loop leave by
    [StopIteration] with the frames collected before it, whatever they are. *)
Lemma frames_loop_truncated_tail fuel frames header rest :
  frames_loop 1 [] (header :: rest) = Some ([], true) ->
  frames_loop (S fuel) frames (header :: rest) = Some (frames, true).
Proof.
  rewrite !frames_loop_step. destruct (frame_decoder header) as [m|].
  - destruct (m rest) as [[frame ws']|]; [|done].
    destruct ws'; cbn; discriminate.
  - destruct rest; cbn; discriminate.
Qed.

Lemma decode_frames_truncated consumed header rest frames ignore_errors :
  frames_loop (length consumed) [] consumed = Some (frames, false) ->
  frames_loop 1 [] (header :: rest) = Some ([], true) ->
  decode_frames ignore_errors (consumed ++ header :: rest)
    = Some (if ignore_errors then Ok frames else Raise IncompleteFrame).
Proof.
  intros Hc Ht. unfold decode_frames.
  rewrite length_app. cbn [length].
  rewrite (frames_loop_app _ _ _ _ _ _ _ Hc
             (frames_loop_truncated_tail (length rest) frames header rest Ht)).
  by destruct ignore_errors.
Qed.

(** C8, amended.  Let the words of a buffer be words that decode completely
    into [frames], followed by a frame whose decoder runs out of words.  In
    strict mode the decode fails with [IncompleteFrame].  In tolerant mode
    the failure is swallowed and the frames decoded before it are combined
    as usual: when a Hit frame is among them the decode returns their hits,
    those of the Hit frames with the canonical keys, and when none is the
    decode fails with [NoHitFrame]. *)
Theorem truncated_frame_strict_and_tolerant (data_raw : list byte)
    (consumed rest : list Z) (header : Z) (frames : list RawFrame) :
  iter_unpack_I data_raw = Some (consumed ++ header :: rest) ->
  frames_loop (length consumed) [] consumed = Some (frames, false) ->
  frames_loop 1 [] (header :: rest) = Some ([], true) ->
  decode_hitbuffer data_raw false = Some (Raise IncompleteFrame) /\
  decode_hitbuffer data_raw true =
    Some (match first_hit_adc_keys frames with
          | Some keys => Ok (emitted keys [] frames)
          | None => Raise NoHitFrame
          end).
Proof.
  intros Hun Hc Ht. unfold decode_hitbuffer, decode_words. rewrite Hun.
  rewrite !(decode_frames_truncated _ _ _ _ _ Hc Ht).
  split; [done|]. rewrite combine_frames_emitted.
  by destruct (first_hit_adc_keys frames).
Qed.

(** C8 as stated fails: a buffer that is one Hit frame cut off in its
    channel data (channel count 2, no word after [multi]) makes the tolerant
    decode fail with [NoHitFrame]; it returns no list of hits. *)
Lemma truncated_only_hit_fails_tolerant :
  let data_raw := [xe8; x03; x00; x00; x0a; x00; x32; x20] in
  iter_unpack_I data_raw = Some [1000; 0x2032000a] /\
  _decode_hit_tot_adcs 1000 [0x2032000a] = None /\
  decode_hitbuffer data_raw false = Some (Raise IncompleteFrame) /\
  decode_hitbuffer data_raw true = Some (Raise NoHitFrame) /\
  (forall hits, decode_hitbuffer data_raw true <> Some (Ok hits)).
Proof. by vm_compute. Qed.

(** ** Buffer repair *)

Lemma py_range_shift (k : nat) : forall start : nat,
  map (fun j => (1024 + j * 1024)%nat) (seq start k)
    = map (fun j => (j * 1024)%nat) (seq (S start) k).
Proof.
  induction k as [|k IH]; intros start; [reflexivity|].
  rewrite <- !cons_seq, !map_cons, IH.
  by replace (1024 + start * 1024)%nat with (S start * 1024)%nat by lia.
Qed.

Lemma py_range_1024 (len : nat) :
  py_range 1024 len 1024 = map (fun j => (j * 1024)%nat) (seq 1 ((len - 1) / 1024)).
Proof.
  unfold py_range.
  replace ((len - 1024 + (1024 - 1)) / 1024)%nat with ((len - 1) / 1024)%nat.
  - apply py_range_shift.
  - destruct (decide (1024 <= len)%nat) as [Hge|Hlt].
    + f_equal. lia.
    + rewrite !Nat.div_small; lia.
Qed.

Lemma bytearray_insert_length i x l :
  length (bytearray_insert i x l) = S (length l).
Proof.
  unfold bytearray_insert. rewrite length_app. cbn [length].
  rewrite length_take, length_drop. lia.
Qed.

Lemma bytearray_insert_twice i x l :
  bytearray_insert i x (bytearray_insert i x l) = take i l ++ [x; x] ++ drop i l.
Proof.
  unfold bytearray_insert. destruct (decide (i <= length l)%nat) as [Hle|Hgt].
  - rewrite take_app_length' by (rewrite length_take; lia).
    rewrite drop_app_length' by (rewrite length_take; lia). reflexivity.
  - rewrite (take_ge l), (drop_ge l) by lia.
    rewrite take_ge, drop_ge by (rewrite length_app; cbn [length]; lia).
    by rewrite <- app_assoc.
Qed.

Lemma insert_loop_length_offsets (offsets : list nat) : forall d : list byte,
  length (foldl (fun d i => bytearray_insert i x00 (bytearray_insert i x00 d))
                d offsets)
    = (length d + 2 * length offsets)%nat.
Proof.
  induction offsets as [|i offsets IH]; intros d; cbn [foldl length]; [lia|].
  rewrite IH, !bytearray_insert_length. lia.
Qed.

Lemma insert_loop_length (data_raw : list byte) :
  length (insert_loop data_raw)
    = (length data_raw + 2 * ((length data_raw - 1) / 1024))%nat.
Proof.
  unfold insert_loop. rewrite insert_loop_length_offsets, py_range_1024.
  by rewrite length_map, length_seq.
Qed.

Lemma pad_loop_aligned fuel (d : list byte) :
  (length d mod 4 = 0)%nat -> pad_loop fuel d = Some d.
Proof.
  intros H0. destruct fuel; cbn [pad_loop];
    by rewrite (bool_decide_eq_false_2 (_ ≠ _)) by tauto.
Qed.

Lemma pad_loop_unaligned fuel (d : list byte) :
  (length d mod 4 ≠ 0)%nat -> pad_loop (S fuel) d = pad_loop fuel (d ++ [x00]).
Proof. intros Hn. cbn [pad_loop]. by rewrite bool_decide_eq_true_2. Qed.

Lemma padding_next (len : nat) :
  (len mod 4 ≠ 0)%nat -> padding len = S (padding (len + 1)).
Proof.
  unfold padding. intros Hn0.
  euclid4 len. euclid4 (len + 1)%nat.
  euclid4 (4 - len mod 4)%nat. euclid4 (4 - (len + 1) mod 4)%nat. lia.
Qed.

Lemma padding_aligned (len : nat) : (len mod 4 = 0)%nat -> padding len = 0%nat.
Proof. unfold padding. intros ->. reflexivity. Qed.

Lemma pad_loop_result fuel : forall d : list byte,
  (padding (length d) <= fuel)%nat ->
  pad_loop fuel d = Some (d ++ repeat x00 (padding (length d))).
Proof.
  induction fuel as [|fuel IH]; intros d Hfuel;
    destruct (decide (length d mod 4 = 0)%nat) as [H0|Hn0].
  - rewrite pad_loop_aligned, padding_aligned by done. cbn. by rewrite app_nil_r.
  - rewrite padding_next in Hfuel by done. lia.
  - rewrite pad_loop_aligned, padding_aligned by done. cbn. by rewrite app_nil_r.
  - rewrite pad_loop_unaligned by done. rewrite padding_next in Hfuel |- * by done.
    rewrite IH by (rewrite length_app; cbn [length]; lia).
    rewrite length_app. cbn [length repeat]. by rewrite <- app_assoc.
Qed.

Lemma padding_aligns (len : nat) :
  (padding len <= 3)%nat /\ ((len + padding len) mod 4 = 0)%nat.
Proof.
  unfold padding. euclid4 len. euclid4 (4 - len mod 4)%nat.
  euclid4 (len + (4 - len mod 4) mod 4)%nat. lia.
Qed.

Lemma insert_pair_length d i : length (insert_pair d i) = (length d + 2)%nat.
Proof.
  unfold insert_pair. rewrite !length_app, length_take, length_drop.
  cbn [length]. lia.
Qed.

Lemma insert_pair_before d i p :
  (p < i <= length d)%nat -> insert_pair d i !! p = d !! p.
Proof.
  intros Hp. unfold insert_pair.
  rewrite lookup_app_l by (rewrite length_take; lia). apply lookup_take_lt. lia.
Qed.

Lemma insert_pair_at d i :
  (i <= length d)%nat ->
  insert_pair d i !! i = Some x00 /\ insert_pair d i !! (i + 1)%nat = Some x00.
Proof.
  intros Hi. unfold insert_pair.
  assert (Hlen : length (take i d) = i) by (rewrite length_take; lia).
  split.
  - rewrite lookup_app_r by lia. by rewrite Hlen, Nat.sub_diag.
  - rewrite lookup_app_r by lia. rewrite Hlen.
    by replace (i + 1 - i)%nat with 1%nat by lia.
Qed.

Lemma insert_pairs_before (offsets : list nat) : forall d p,
  Forall (fun i => (p < i <= length d)%nat) offsets ->
  foldl insert_pair d offsets !! p = d !! p.
Proof.
  induction offsets as [|i offsets IH]; intros d p Hall; [done|].
  inversion Hall as [|? ? Hi Hrest]; subst. cbn [foldl].
  rewrite IH.
  - by apply insert_pair_before.
  - eapply Forall_impl; [exact Hrest|]. intros i' Hi'. cbn beta in Hi' |- *.
    rewrite insert_pair_length. lia.
Qed.

Lemma insert_pairs_length (offsets : list nat) : forall d,
  length (foldl insert_pair d offsets) = (length d + 2 * length offsets)%nat.
Proof.
  induction offsets as [|i offsets IH]; intros d; cbn [foldl length]; [lia|].
  rewrite IH, insert_pair_length. lia.
Qed.

(** The offsets of the loop are increasing multiples of 1024 below the
    length of the input; each pair of zero bytes stays where it was put. *)
Lemma insert_pairs_zero (count : nat) : forall (first : nat) (d : list byte) (j : nat),
  (first <= j < first + count)%nat ->
  ((first + count - 1) * 1024 <= length d)%nat ->
  let grown := foldl insert_pair d (map (fun j => (j * 1024)%nat) (seq first count)) in
  grown !! (j * 1024)%nat = Some x00 /\ grown !! (j * 1024 + 1)%nat = Some x00.
Proof.
  induction count as [|count IH]; intros first d j Hj Hlen; [lia|].
  cbn [seq map foldl].
  destruct (decide (j = first)) as [->|Hne].
  - rewrite !insert_pairs_before.
    + apply insert_pair_at. nia.
    + apply Forall_forall. intros i Hi. apply list_elem_of_In in Hi.
      apply in_map_iff in Hi as (j' & <- & Hj').
      apply in_seq in Hj'. rewrite insert_pair_length. nia.
    + apply Forall_forall. intros i Hi. apply list_elem_of_In in Hi.
      apply in_map_iff in Hi as (j' & <- & Hj').
      apply in_seq in Hj'. rewrite insert_pair_length. nia.
  - apply IH; [lia|]. rewrite insert_pair_length. nia.
Qed.

Lemma insert_loop_pairs (data_raw : list byte) :
  insert_loop data_raw
    = foldl insert_pair data_raw
        (map (fun j => (j * 1024)%nat) (seq 1 ((length data_raw - 1) / 1024))).
Proof.
  unfold insert_loop. rewrite py_range_1024.
  generalize (map (fun j => (j * 1024)%nat) (seq 1 ((length data_raw - 1) / 1024))).
  intros offsets. revert data_raw.
  induction offsets as [|i offsets IH]; intros d; [done|].
  cbn [foldl]. by rewrite bytearray_insert_twice, IH.
Qed.

(** What the loop does as it is written.  The range of offsets is built
    from the length the buffer has before anything is inserted, so the pairs
    of zero bytes go in at offset 1024 and at each further multiple of 1024
    that is below the length of the input, each offset being taken in the
    buffer as it has grown so far, and no pair goes in at a multiple of 1024
    that only the grown buffer reaches.  Zero bytes are then appended until
    the length is a multiple of 4, which takes at most three iterations. *)
Theorem repair_inserts_below_input_length (data_raw : list byte) :
  let len := length data_raw in
  let k := ((len - 1) / 1024)%nat in
  let offsets := map (fun j => (j * 1024)%nat) (seq 1 k) in
  let grown := foldl insert_pair data_raw offsets in
  py_range 1024 len 1024 = offsets /\
  (forall i, In i offsets <-> exists j, i = (j * 1024)%nat /\ (1 <= j)%nat /\ (i < len)%nat) /\
  insert_loop data_raw = grown /\
  length grown = (len + 2 * k)%nat /\
  (forall i, In i offsets ->
     grown !! i = Some x00 /\ grown !! (i + 1)%nat = Some x00) /\
  fix_hitbuffer_data data_raw
    = Some (grown ++ repeat x00 (padding (len + 2 * k))) /\
  (forall fuel, (3 <= fuel)%nat ->
     pad_loop fuel (insert_loop data_raw) = fix_hitbuffer_data data_raw) /\
  (padding (len + 2 * k) <= 3)%nat /\
  ((len + 2 * k + padding (len + 2 * k)) mod 4 = 0)%nat.
Proof.
  intros len k offsets grown.
  assert (Hgrown : insert_loop data_raw = grown) by apply insert_loop_pairs.
  assert (Hlen : length grown = (len + 2 * k)%nat).
  { unfold grown, offsets. by rewrite insert_pairs_length, length_map, length_seq. }
  assert (Hk : forall j, (1 <= j < 1 + k)%nat <-> (1 <= j /\ j * 1024 < len)%nat).
  { intros j. unfold k.
    pose proof (Nat.div_mod_eq (len - 1) 1024).
    pose proof (Nat.mod_upper_bound (len - 1) 1024 ltac:(lia)). nia. }
  pose proof (padding_aligns (len + 2 * k)) as [Hp3 Hp0].
  assert (Hpad : forall fuel, (3 <= fuel)%nat ->
            pad_loop fuel (insert_loop data_raw)
            = Some (grown ++ repeat x00 (padding (len + 2 * k)))).
  { intros fuel Hfuel. rewrite Hgrown, pad_loop_result; rewrite Hlen; [done|lia]. }
  repeat split.
  - apply py_range_1024.
  - intros Hi. apply in_map_iff in Hi as (j & <- & Hj). apply in_seq in Hj.
    exists j. apply Hk in Hj. by repeat split; try lia.
  - intros (j & -> & Hj1 & Hj2). apply in_map_iff. exists j. split; [done|].
    apply in_seq. apply Hk. lia.
  - exact Hgrown.
  - exact Hlen.
  - apply in_map_iff in H as (j & <- & Hj). apply in_seq in Hj.
    apply (insert_pairs_zero k 1 data_raw j); [lia|]. fold len.
    apply Hk in Hj. unfold k.
    pose proof (Nat.div_mod_eq (len - 1) 1024). nia.
  - apply in_map_iff in H as (j & <- & Hj). apply in_seq in Hj.
    apply (insert_pairs_zero k 1 data_raw j); [lia|]. fold len.
    apply Hk in Hj. unfold k.
    pose proof (Nat.div_mod_eq (len - 1) 1024). nia.
  - unfold fix_hitbuffer_data. by apply Hpad.
  - intros fuel Hfuel. unfold fix_hitbuffer_data. by rewrite !Hpad.
  - exact Hp3.
  - exact Hp0.
Qed.

(** C3.  The code does not do what the claim says, and what its own
    comment says it is for.  For an input of 3071 bytes it inserts at 1024
    and 2048 only, the multiples of 1024 below 3071, and returns 3076 bytes;
    continuing while the offset is within the grown buffer inserts at 3072
    as well, which is within the 3075 bytes the buffer has by then, and gives
    3080 bytes.  For an input of 2048 bytes the code inserts at 1024 only
    and pads, so the last word of its output is the last two input bytes
    followed by two zero bytes, where the loop of the claim puts the pair of
    zero bytes at offset 2048, before those two bytes. *)
Lemma repair_bound_is_not_grown_length :
  let raw := repeat xff 3071 in
  let raw' := repeat xff 2048 in
  (py_range 1024 (length raw) 1024 = [1024; 2048]%nat /\
   length <$> fix_hitbuffer_data raw = Some 3076%nat /\
   length (spec_repair raw) = 3080%nat /\
   fix_hitbuffer_data raw <> Some (spec_repair raw)) /\
  (py_range 1024 (length raw') 1024 = [1024]%nat /\
   drop 2048 <$> fix_hitbuffer_data raw' = Some [xff; xff; x00; x00] /\
   drop 2048 (spec_repair raw') = [x00; x00; xff; xff]).
Proof.
  cbv zeta. split.
  - split; [by vm_compute|]. split; [by vm_compute|].
    split; [by vm_compute|].
    intros Heq. apply (f_equal (fmap length)) in Heq. vm_compute in Heq.
    discriminate Heq.
  - split; [by vm_compute|]. split; by vm_compute.
Qed.

(** ** Words of a buffer are 32-bit *)

Lemma byte_to_Z_range (b : byte) : 0 <= byte_to_Z b < 256.
Proof. unfold byte_to_Z. pose proof (Byte.to_N_bounded b). lia. Qed.

Lemma iter_unpack_I_range : forall (n : nat) (data_raw : list byte) (words : list Z),
  (length data_raw <= n)%nat ->
  iter_unpack_I data_raw = Some words ->
  Forall (fun w => 0 <= w < 2 ^ 32) words /\
  length data_raw = (4 * length words)%nat.
Proof.
  induction n as [|n IH]; intros data_raw words Hlen.
  - destruct data_raw; [|cbn in Hlen; lia]. intros [= <-]. by split.
  - destruct data_raw as [|b0 [|b1 [|b2 [|b3 rest]]]]; try discriminate.
    + intros [= <-]. by split.
    + cbn [iter_unpack_I].
      destruct (iter_unpack_I rest) as [ws|] eqn:Hrest; [|discriminate].
      intros [= <-]. destruct (IH rest ws) as [Hall Hl]; [cbn in Hlen; lia|done|].
      split; [|cbn [length]; lia].
      constructor; [|exact Hall]. unfold unpack_le32.
      pose proof (byte_to_Z_range b0). pose proof (byte_to_Z_range b1).
      pose proof (byte_to_Z_range b2). pose proof (byte_to_Z_range b3).
      change (2 ^ 32) with 4294967296. lia.
Qed.

(** ** The theorems at concrete buffers *)

Lemma repair_inserts_below_input_length_witness :
  let raw := repeat xff 1030 in
  In 1024%nat [1024%nat] /\ (3 <= 5)%nat /\
  fix_hitbuffer_data raw = Some (repeat xff 1024 ++ [x00; x00] ++ repeat xff 6) /\
  pad_loop 5 (insert_loop raw) = fix_hitbuffer_data raw /\
  insert_loop raw !! 1024%nat = Some x00.
Proof.
  cbv zeta.
  destruct (repair_inserts_below_input_length (repeat xff 1030))
    as (Hr & Hoff & Hloop & Hlen & Hzero & Hfix & Hfuel & Hp & Hal).
  assert (Hin : In 1024%nat [1024%nat]) by (left; reflexivity).
  assert (H35 : (3 <= 5)%nat) by lia.
  split; [exact Hin|]. split; [exact H35|].
  split; [rewrite Hfix; vm_compute; reflexivity|].
  split; [exact (Hfuel 5%nat H35)|].
  rewrite Hloop. exact (proj1 (Hzero 1024%nat Hin)).
Defined.

Lemma dispatch_by_top_byte_witness :
  0 <= 0xe7000001 < 2 ^ 32 /\
  frames_loop 2 [] [0xe7000001; 0x1032000a]
    = Some ([RawFrameHit 0xe7000001 50 {[0 := 10]}], false).
Proof.
  assert (Hh : 0 <= 0xe7000001 < 2 ^ 32) by lia.
  split; [exact Hh|].
  destruct (dispatch_by_top_byte 1 [] 0xe7000001 [0x1032000a] Hh) as [_ ->].
  vm_compute. reflexivity.
Defined.

Lemma hit_uses_state_in_effect_witness :
  let frames := scenario_headers ++ RawFrameHit 1000 50 scenario_channels :: [] in
  first_hit_adc_keys frames = Some (dom scenario_channels) /\
  combine_frames false frames = Ok [scenario_hit] /\
  foldl spec_step (-1, -1, false) scenario_headers
    = (year_in_effect scenario_headers, second_in_effect scenario_headers,
       trigger_in_effect scenario_headers).
Proof.
  cbv zeta.
  assert (H1 : first_hit_adc_keys
                 (scenario_headers ++ RawFrameHit 1000 50 scenario_channels :: [])
               = Some (dom scenario_channels)) by reflexivity.
  assert (H2 : combine_frames false
                 (scenario_headers ++ RawFrameHit 1000 50 scenario_channels :: [])
               = Ok [scenario_hit]) by (vm_compute; reflexivity).
  exact (conj H1 (conj H2 (proj1 (hit_uses_state_in_effect false scenario_headers []
                                    1000 50 scenario_channels [scenario_hit] H1 H2)))).
Defined.

Lemma timestamp_tenths_ns_exact_witness :
  36 * 3472 <= 1000 * 125 < 36 * (3472 + 1) /\
  resolve_time_10th_ns 100 1000 = 100 * 10000000000 + 3472.
Proof.
  assert (H : 36 * 3472 <= 1000 * 125 < 36 * (3472 + 1)) by lia.
  exact (conj H (proj1 (proj1 (proj2 (timestamp_tenths_ns_exact 100 1000)) 3472) H)).
Defined.

Lemma mismatched_hit_dropped_or_fatal_witness :
  let pre := [RawFrameHit 1000 50 {[0 := 10]}] in
  let frames := pre ++ RawFrameHit 2000 50 {[1 := 20]} :: [] in
  (iter_unpack_I mismatch_bytes = Some mismatch_words /\
   frames_loop (length mismatch_words) [] mismatch_words = Some (frames, false) /\
   iter_unpack_I mismatch_truncated_bytes = Some mismatch_truncated_words /\
   frames_loop (length mismatch_truncated_words) [] mismatch_truncated_words
     = Some (frames, true) /\
   first_hit_adc_keys frames = Some {[0]} /\
   dom ({[1 := 20]} : gmap Z Z) ≠ ({[0]} : gset Z)) /\
  decode_hitbuffer mismatch_bytes true = Some (Ok [first_hit]) /\
  decode_hitbuffer mismatch_bytes false = Some (Raise InconsistentChannels) /\
  decode_hitbuffer mismatch_truncated_bytes true = Some (Ok [first_hit]) /\
  decode_hitbuffer mismatch_truncated_bytes false = Some (Raise IncompleteFrame).
Proof.
  cbv zeta.
  assert (H1 : iter_unpack_I mismatch_bytes = Some mismatch_words)
    by (vm_compute; reflexivity).
  assert (H2 : frames_loop (length mismatch_words) [] mismatch_words
               = Some ([RawFrameHit 1000 50 {[0 := 10]}]
                       ++ RawFrameHit 2000 50 {[1 := 20]} :: [], false))
    by (vm_compute; reflexivity).
  assert (H1' : iter_unpack_I mismatch_truncated_bytes = Some mismatch_truncated_words)
    by (vm_compute; reflexivity).
  assert (H2' : frames_loop (length mismatch_truncated_words) []
                  mismatch_truncated_words
                = Some ([RawFrameHit 1000 50 {[0 := 10]}]
                        ++ RawFrameHit 2000 50 {[1 := 20]} :: [], true))
    by (vm_compute; reflexivity).
  assert (H3 : first_hit_adc_keys ([RawFrameHit 1000 50 {[0 := 10]}]
                                   ++ RawFrameHit 2000 50 {[1 := 20]} :: [])
               = Some {[0]}) by (vm_compute; reflexivity).
  assert (H4 : dom ({[1 := 20]} : gmap Z Z) ≠ ({[0]} : gset Z))
    by (apply (bool_decide_unpack _); vm_compute; exact I).
  destruct (mismatched_hit_dropped_or_fatal mismatch_bytes _ _ _ _ _ _ _ _
              H1 H2 H3 H4) as (Ht & Hs & _ & _).
  destruct (mismatched_hit_dropped_or_fatal mismatch_truncated_bytes _ _ _ _ _ _ _ _
              H1' H2' H3 H4) as (Ht' & Hs' & _ & _).
  split; [exact (conj H1 (conj H2 (conj H1' (conj H2' (conj H3 H4)))))|].
  split; [rewrite Ht; vm_compute; reflexivity|].
  split; [exact Hs|].
  split; [rewrite Ht'; vm_compute; reflexivity|].
  exact Hs'.
Defined.

Lemma truncated_frame_strict_and_tolerant_witness :
  let consumed := [1000; 0x1032000a] in
  let frames := [RawFrameHit 1000 50 {[0 := 10]}] in
  iter_unpack_I truncated_bytes = Some (consumed ++ 2000 :: [0x2032000a]) /\
  frames_loop (length consumed) [] consumed = Some (frames, false) /\
  frames_loop 1 [] (2000 :: [0x2032000a]) = Some ([], true) /\
  decode_hitbuffer truncated_bytes false = Some (Raise IncompleteFrame) /\
  decode_hitbuffer truncated_bytes true = Some (Ok [first_hit]).
Proof.
  cbv zeta.
  assert (H1 : iter_unpack_I truncated_bytes
               = Some ([1000; 0x1032000a] ++ 2000 :: [0x2032000a]))
    by (vm_compute; reflexivity).
  assert (H2 : frames_loop (length [1000; 0x1032000a]) [] [1000; 0x1032000a]
               = Some ([RawFrameHit 1000 50 {[0 := 10]}], false))
    by (vm_compute; reflexivity).
  assert (H3 : frames_loop 1 [] (2000 :: [0x2032000a]) = Some ([], true))
    by (vm_compute; reflexivity).
  destruct (truncated_frame_strict_and_tolerant truncated_bytes _ _ _ _ H1 H2 H3)
    as [Hstrict Htolerant].
  split; [exact H1|]. split; [exact H2|]. split; [exact H3|].
  split; [exact Hstrict|]. rewrite Htolerant. vm_compute. reflexivity.
Defined.


Lemma returned_hits_nonempty_witness :
  decode_hitbuffer scenario_bytes false = Some (Ok [scenario_hit]) /\
  [scenario_hit] ≠ [].
Proof.
  assert (H : decode_hitbuffer scenario_bytes false = Some (Ok [scenario_hit]))
    by (vm_compute; reflexivity).
  exact (conj H (proj1 (returned_hits_nonempty scenario_bytes false [scenario_hit] H))).
Defined.

(** * Further properties of the code *)

(** ** Decoded fields are in range *)

Lemma land_ones_range (x n : Z) : 0 <= n -> 0 <= Z.land x (Z.ones n) < 2 ^ n.
Proof.
  intros Hn. rewrite Z.land_ones by done. apply Z.mod_pos_bound.
  by apply Z.pow_pos_nonneg.
Qed.

Lemma adc_loop_in_range n : forall adc_odd adc_word adc_data ws adc_data' ws',
  adc_loop n adc_odd adc_word adc_data ws = Some (adc_data', ws') ->
  channels_in_range adc_data ->
  channels_in_range adc_data' /\ (size adc_data' <= size adc_data + n)%nat.
Proof.
  induction n as [|n IH]; intros adc_odd adc_word adc_data ws adc_data' ws' Hrun Hin.
  - injection Hrun as <- <-. split; [done|lia].
  - assert (Hstep : forall w ws1,
              adc_loop n (negb adc_odd) w
                (<[Z.land (w ≫ 12) 0xf := Z.land w 0xfff]> adc_data) ws1
                = Some (adc_data', ws') ->
              channels_in_range adc_data' /\
              (size adc_data' <= size adc_data + S n)%nat).
    { intros w ws1 Hrun1. apply IH in Hrun1 as [Hin' Hsize].
      - split; [exact Hin'|].
        pose proof (map_size_insert (Z.land (w ≫ 12) 0xf) (Z.land w 0xfff) adc_data)
          as Hs.
        destruct (adc_data !! Z.land (w ≫ 12) 0xf); cbn in Hs; lia.
      - intros index value Hl. apply lookup_insert_Some in Hl as [[<- <-]|[_ Hl]].
        + split; [apply (land_ones_range _ 4) | apply (land_ones_range _ 12)]; lia.
        + by apply Hin. }
    cbn [adc_loop] in Hrun. unfold bind in Hrun. destruct adc_odd.
    + by apply (Hstep (adc_word ≫ 16) ws).
    + destruct ws as [|w ws1]; [discriminate Hrun|]. by apply (Hstep w ws1).
Qed.

Lemma forward_word32 {A} (m : Words A) ws a ws' :
  forward m -> m ws = Some (a, ws') -> Forall word32 ws -> Forall word32 ws'.
Proof.
  intros Hf Hrun Hall. destruct (Hf _ _ _ Hrun) as [taken ->].
  by apply Forall_app in Hall as [_ Hall].
Qed.

Lemma decode_hit_in_range header ws frame ws' :
  word32 header ->
  _decode_hit_tot_adcs header ws = Some (frame, ws') ->
  frame_in_range frame.
Proof.
  intros Hh. unfold _decode_hit_tot_adcs, bind at 1, next_word.
  destruct ws as [|multi ws]; [discriminate|]. unfold bind, ret.
  destruct (adc_loop _ _ _ _ _) as [[adc ws1]|] eqn:Hloop; [|discriminate].
  intros [= <- <-]. apply adc_loop_in_range in Hloop as [Hin Hsize]; [|done].
  pose proof (adc_count_of_range multi). rewrite map_size_empty in Hsize.
  pose proof (land_ones_range (multi ≫ 16) 12 ltac:(lia)) as Htot.
  change (Z.ones 12) with 0xfff in Htot.
  cbn [frame_in_range]. unfold word32 in Hh.
  split; [lia|]. split; [lia|]. split; [exact Hin|lia].
Qed.

Lemma frame_decoder_in_range header m ws frame ws' :
  word32 header -> Forall word32 ws ->
  frame_decoder header = Some m -> m ws = Some (frame, ws') ->
  frame_in_range frame /\ Forall word32 ws'.
Proof.
  intros Hh Hws Hm Hrun. split.
  - unfold frame_decoder in Hm. rewrite decoders_lookup in Hm.
    repeat case_decide.
    + injection Hm as <-. injection Hrun as <- <-. apply (land_ones_range _ 16). lia.
    + injection Hm as <-. injection Hrun as <- <-. apply (land_ones_range _ 26). lia.
    + injection Hm as <-. unfold _decode_trigger_config, bind, next_word, ret in Hrun.
      destruct ws as [|offset ws]; [discriminate Hrun|]. injection Hrun as <- <-.
      apply Forall_cons in Hws as [Hoff _].
      repeat split; try apply Hoff;
        [apply (land_ones_range _ 16) | apply (land_ones_range _ 16)
        |apply (land_ones_range _ 8) | apply (land_ones_range _ 8)]; lia.
    + injection Hm as <-. injection Hrun as <- <-.
      repeat split;
        [apply (land_ones_range _ 8) | apply (land_ones_range _ 8)
        |apply (land_ones_range _ 16) | apply (land_ones_range _ 16)]; lia.
    + destruct (_ <? _); [|discriminate Hm]. injection Hm as <-.
      by eapply decode_hit_in_range.
  - eapply forward_word32; [|exact Hrun|exact Hws].
    unfold frame_decoder in Hm. destruct (decoders !! _) as [decoder|] eqn:Hd.
    + injection Hm as <-. by eapply forward_decoders.
    + destruct (_ <? _); [|discriminate Hm]. injection Hm as <-.
      apply forward_decode_hit.
Qed.

Lemma frames_loop_in_range fuel : forall frames0 words frames stopped,
  frames_loop fuel frames0 words = Some (frames, stopped) ->
  Forall word32 words -> Forall frame_in_range frames0 ->
  Forall frame_in_range frames.
Proof.
  induction fuel as [|fuel IH]; intros frames0 words frames stopped Hrun Hws Hf0.
  - destruct words; [|discriminate Hrun]. by injection Hrun as <- <-.
  - destruct words as [|header ws]; [by injection Hrun as <- <-|].
    rewrite frames_loop_step in Hrun. apply Forall_cons in Hws as [Hh Hws].
    destruct (frame_decoder header) as [m|] eqn:Hm.
    + destruct (m ws) as [[frame ws']|] eqn:Hw.
      * destruct (frame_decoder_in_range _ _ _ _ _ Hh Hws Hm Hw) as [Hfr Hws'].
        eapply IH; [exact Hrun|exact Hws'|].
        apply Forall_app. split; [done|by constructor].
      * by injection Hrun as <- <-.
    + by eapply IH.
Qed.

Lemma year_in_effect_range pre :
  Forall frame_in_range pre -> -1 <= year_in_effect pre < 2 ^ 16.
Proof.
  induction pre as [|f pre IH] using rev_ind; intros Hall.
  - by vm_compute.
  - apply Forall_app in Hall as [Hpre Hf]. apply Forall_cons in Hf as [Hf _].
    unfold year_in_effect in *. rewrite most_recent_snoc.
    destruct f; cbn [frame_year frame_in_range] in *; try by apply IH.
    lia.
Qed.

Lemma second_in_effect_range pre :
  Forall frame_in_range pre -> -1 <= second_in_effect pre < 2 ^ 26.
Proof.
  induction pre as [|f pre IH] using rev_ind; intros Hall.
  - by vm_compute.
  - apply Forall_app in Hall as [Hpre Hf]. apply Forall_cons in Hf as [Hf _].
    unfold second_in_effect in *. rewrite most_recent_snoc.
    destruct f; cbn [frame_second frame_in_range] in *; try by apply IH.
    lia.
Qed.

Lemma resolve_time_range second offset :
  -1 <= second < 2 ^ 26 -> 0 <= offset < 2 ^ 32 ->
  - 10000000000 <= resolve_time_10th_ns second offset < 2 ^ 63.
Proof.
  unfold resolve_time_10th_ns, int_1e10.
  change (2 ^ 26) with 67108864. change (2 ^ 32) with 4294967296.
  change (2 ^ 63) with 9223372036854775808.
  intros Hs Ho. Z.div_mod_to_equations. lia.
Qed.

Lemma emitted_in_range keys post : forall pre,
  Forall frame_in_range pre -> Forall frame_in_range post ->
  Forall hit_in_range (emitted keys pre post).
Proof.
  induction post as [|f post IH]; intros pre Hpre Hpost; [constructor|].
  apply Forall_cons in Hpost as [Hf Hpost]. cbn [emitted].
  apply Forall_app. split.
  - destruct f as [| | | |offset tot adc]; try constructor.
    destruct (bool_decide _); constructor; [|constructor].
    destruct Hf as (Hoff & Htot & Hch & Hsize).
    split; [by apply year_in_effect_range|].
    split; [apply resolve_time_range; [by apply second_in_effect_range|done]|].
    done.
  - apply IH; [|done]. apply Forall_app. split; [done|by constructor].
Qed.

(** ** The outcomes of [decode_hitbuffer] *)

Lemma iter_unpack_I_aligned : forall (n : nat) (data_raw : list byte),
  (length data_raw <= n)%nat ->
  (length data_raw mod 4 = 0)%nat -> is_Some (iter_unpack_I data_raw).
Proof.
  induction n as [|n IH]; intros data_raw Hlen Hal.
  - destruct data_raw; [by eexists | cbn in Hlen; lia].
  - destruct data_raw as [|b0 [|b1 [|b2 [|b3 rest]]]]; try discriminate Hal.
    + by eexists.
    + cbn [iter_unpack_I]. destruct (IH rest) as [ws ->]; [cbn in Hlen; lia| |by eexists].
      cbn [length] in Hal.
      replace (S (S (S (S (length rest))))) with (length rest + 1 * 4)%nat in Hal by lia.
      by rewrite Nat.Div0.mod_add in Hal.
Qed.

Lemma iter_unpack_I_None (data_raw : list byte) :
  iter_unpack_I data_raw = None <-> (length data_raw mod 4 ≠ 0)%nat.
Proof.
  split.
  - intros Hnone Hal.
    destruct (iter_unpack_I_aligned _ data_raw (Nat.le_refl _) Hal) as [ws Hws].
    congruence.
  - intros Hn. destruct (iter_unpack_I data_raw) as [ws|] eqn:Hws; [|done].
    destruct (iter_unpack_I_range _ _ _ (Nat.le_refl _) Hws) as [_ Hlen].
    destruct Hn. rewrite Hlen, Nat.mul_comm. apply Nat.Div0.mod_mul.
Qed.

(** Every way [decode_hitbuffer] can end, by what the dispatch loop leaves. *)
Lemma decode_hitbuffer_outcome (data_raw : list byte) (ignore_errors : bool) :
  match iter_unpack_I data_raw with
  | None => decode_hitbuffer data_raw ignore_errors = Some (Raise StructError)
  | Some words =>
      exists frames stopped,
        Forall word32 words /\
        frames_loop (length words) [] words = Some (frames, stopped) /\
        decode_frames ignore_errors words
          = Some (if stopped && negb ignore_errors then Raise IncompleteFrame
                  else Ok frames) /\
        decode_hitbuffer data_raw ignore_errors =
          Some (if stopped && negb ignore_errors then Raise IncompleteFrame
                else match first_hit_adc_keys frames with
                     | None => Raise NoHitFrame
                     | Some keys =>
                         if ignore_errors || forallb (frame_ok keys) frames
                         then Ok (emitted keys [] frames)
                         else Raise InconsistentChannels
                     end)
  end.
Proof.
  unfold decode_hitbuffer, decode_words, decode_frames.
  destruct (iter_unpack_I data_raw) as [words|] eqn:Hun; [|done].
  destruct (frames_loop_fuel (length words) [] words (Nat.le_refl _))
    as [[frames stopped] Hloop].
  exists frames, stopped. rewrite Hloop.
  split; [exact (proj1 (iter_unpack_I_range _ _ _ (Nat.le_refl _) Hun))|].
  split; [done|].
  destruct (stopped && negb ignore_errors); [done|].
  by rewrite combine_frames_emitted.
Qed.

(** X1.  Every hit the decode returns has fields of the width the frame
    layout gives them: the year is -1 or a 16-bit number, tot is a 12-bit
    number, the channel indices are 4-bit and the channel values 12-bit
    numbers, there are at most 15 channels, and the timestamp is at least
    [-10^10] and fits a signed 64-bit integer. *)
Theorem decoded_hits_in_range (data_raw : list byte) (ignore_errors : bool)
    (hits : list Hit) :
  decode_hitbuffer data_raw ignore_errors = Some (Ok hits) ->
  Forall hit_in_range hits.
Proof.
  intros Hok. pose proof (decode_hitbuffer_outcome data_raw ignore_errors) as Hout.
  destruct (iter_unpack_I data_raw) as [words|]; [|congruence].
  destruct Hout as (frames & stopped & Hws & Hloop & _ & Hdec).
  rewrite Hok in Hdec. destruct (stopped && negb ignore_errors); [discriminate Hdec|].
  destruct (first_hit_adc_keys frames) as [keys|]; [|discriminate Hdec].
  destruct (_ || _); [|discriminate Hdec]. injection Hdec as ->.
  apply emitted_in_range; [constructor|].
  by eapply frames_loop_in_range.
Qed.

(** X2.  The decode fails with [struct.error] exactly for the buffers whose
    length is no multiple of 4, whether errors are ignored or not. *)
Theorem struct_error_iff_misaligned (data_raw : list byte) (ignore_errors : bool) :
  decode_hitbuffer data_raw ignore_errors = Some (Raise StructError)
  <-> (length data_raw mod 4 ≠ 0)%nat.
Proof.
  rewrite <- iter_unpack_I_None.
  pose proof (decode_hitbuffer_outcome data_raw ignore_errors) as Hout.
  destruct (iter_unpack_I data_raw) as [words|]; [|done].
  destruct Hout as (frames & stopped & _ & _ & _ & Hdec). rewrite Hdec.
  split; [|discriminate].
  destruct (stopped && negb ignore_errors); [discriminate|].
  destruct (first_hit_adc_keys frames); [|discriminate].
  destruct (_ || _); discriminate.
Qed.

(** X3.  With [ignore_errors] set the decode raises neither of its two
    [ValueError]s: it returns hits, or fails with the [StopIteration] of a
    buffer without Hit frame or with [struct.error]. *)
Theorem tolerant_raises_no_value_error (data_raw : list byte) :
  (exists hits, decode_hitbuffer data_raw true = Some (Ok hits)) \/
  decode_hitbuffer data_raw true = Some (Raise NoHitFrame) \/
  decode_hitbuffer data_raw true = Some (Raise StructError).
Proof.
  pose proof (decode_hitbuffer_outcome data_raw true) as Hout.
  destruct (iter_unpack_I data_raw) as [words|]; [|by right; right].
  destruct Hout as (frames & stopped & _ & _ & _ & Hdec). rewrite Hdec.
  rewrite andb_false_r. destruct (first_hit_adc_keys frames) as [keys|].
  - left. by eexists.
  - by right; left.
Qed.

(** X4.  A buffer that decodes without error in strict mode decodes to the
    same hits with [ignore_errors] set. *)
Theorem strict_result_is_tolerant_result (data_raw : list byte) (hits : list Hit) :
  decode_hitbuffer data_raw false = Some (Ok hits) ->
  decode_hitbuffer data_raw true = Some (Ok hits).
Proof.
  intros Hok.
  pose proof (decode_hitbuffer_outcome data_raw false) as Hs.
  pose proof (decode_hitbuffer_outcome data_raw true) as Ht.
  destruct (iter_unpack_I data_raw) as [words|]; [|congruence].
  destruct Hs as (frames & stopped & _ & Hloop & _ & Hdec).
  destruct Ht as (frames' & stopped' & _ & Hloop' & _ & Hdec').
  rewrite Hloop in Hloop'. injection Hloop' as <- <-.
  rewrite Hdec'. rewrite Hok in Hdec.
  destruct stopped; [discriminate Hdec|]. cbn [andb] in *.
  destruct (first_hit_adc_keys frames) as [keys|]; [|discriminate Hdec].
  cbn [orb] in *. destruct (forallb _ _); [|discriminate Hdec].
  by injection Hdec as ->.
Qed.

Lemma emitted_keys keys post : forall pre,
  Forall (fun h => dom (adc_data h) = keys) (emitted keys pre post).
Proof.
  induction post as [|f post IH]; intros pre; [constructor|].
  cbn [emitted]. apply Forall_app. split; [|apply IH].
  destruct f as [| | | |offset tot adc]; try constructor.
  case_bool_decide; constructor; [done|constructor].
Qed.

Lemma emitted_payload keys post : forall pre,
  map hit_payload (emitted keys pre post)
    = omap frame_payload (filter (fun f => frame_ok keys f) post).
Proof.
  induction post as [|f post IH]; intros pre; [reflexivity|].
  cbn [emitted]. rewrite map_app, IH, filter_cons.
  destruct f as [| | | |offset tot adc]; cbn [frame_ok]; try by rewrite decide_True.
  destruct (decide (dom adc = keys)) as [Heq|Hne].
  - rewrite (bool_decide_eq_true_2 _ Heq). by rewrite decide_True.
  - rewrite (bool_decide_eq_false_2 _ Hne). rewrite decide_False; [done|].
    by intros [].
Qed.

Lemma filter_frame_ok_all keys (frames : list RawFrame) :
  forallb (frame_ok keys) frames = true ->
  filter (fun f => frame_ok keys f) frames = frames.
Proof.
  induction frames as [|f frames IH]; [done|]. cbn [forallb].
  intros [Hf Hrest]%andb_true_iff. rewrite filter_cons, decide_True, IH; try done.
  by rewrite Hf.
Qed.

(** X5.  The hits the decode returns all have one and the same set of
    channel keys, the key set of the first of them. *)
Theorem returned_hits_share_keys (data_raw : list byte) (ignore_errors : bool)
    (hits : list Hit) :
  decode_hitbuffer data_raw ignore_errors = Some (Ok hits) ->
  exists keys,
    dom <$> (adc_data <$> head hits) = Some keys /\
    Forall (fun h => dom (adc_data h) = keys) hits.
Proof.
  intros Hok. pose proof (decode_hitbuffer_outcome data_raw ignore_errors) as Hout.
  destruct (iter_unpack_I data_raw) as [words|]; [|congruence].
  destruct Hout as (frames & stopped & _ & _ & _ & Hdec).
  rewrite Hok in Hdec. destruct (stopped && negb ignore_errors); [discriminate Hdec|].
  destruct (first_hit_adc_keys frames) as [keys|] eqn:Hfirst; [|discriminate Hdec].
  destruct (_ || _); [|discriminate Hdec]. injection Hdec as ->.
  exists keys. pose proof (emitted_keys keys frames []) as Hall.
  split; [|exact Hall].
  destruct (first_hit_adc_keys_split _ _ Hfirst)
    as (pre & offset & tot & adc & post & -> & Hpre & <-).
  rewrite emitted_app, (emitted_no_hit _ _ _ Hpre). cbn [emitted app].
  by rewrite bool_decide_eq_true_2.
Qed.

(** X6.  In strict mode a decode that returns gives one hit per Hit frame
    of the buffer, in frame order, each with the channels and tot of its
    frame; with [ignore_errors] set the hits are those of the Hit frames
    that have the keys of the first Hit frame, in frame order. *)
Theorem hits_follow_hit_frames (data_raw : list byte) (ignore_errors : bool)
    (words : list Z) (frames : list RawFrame) (hits : list Hit) :
  iter_unpack_I data_raw = Some words ->
  decode_frames ignore_errors words = Some (Ok frames) ->
  decode_hitbuffer data_raw ignore_errors = Some (Ok hits) ->
  exists keys,
    first_hit_adc_keys frames = Some keys /\
    map hit_payload hits
      = omap frame_payload (filter (fun f => frame_ok keys f) frames) /\
    (ignore_errors = false ->
       map hit_payload hits = omap frame_payload frames /\
       length hits = length (filter (fun f => is_hit f) frames)).
Proof.
  intros Hun Hfr. unfold decode_hitbuffer, decode_words. rewrite Hun, Hfr.
  rewrite combine_frames_emitted.
  destruct (first_hit_adc_keys frames) as [keys|]; [|discriminate].
  destruct (ignore_errors || forallb (frame_ok keys) frames) eqn:Hok; [|discriminate].
  intros [= <-]. exists keys. split; [done|]. split; [apply emitted_payload|].
  intros ->. cbn [orb] in Hok.
  rewrite emitted_payload, (filter_frame_ok_all _ _ Hok).
  split; [done|].
  rewrite <- (length_map hit_payload), emitted_payload, (filter_frame_ok_all _ _ Hok).
  clear. induction frames as [|f frames IH]; [done|].
  rewrite filter_cons. destruct f; cbn [omap list_omap frame_payload is_hit];
    rewrite ?decide_True, ?decide_False by (cbn; tauto); cbn [length]; by rewrite ?IH.
Qed.

(** ** Buffers one after the other *)






Lemma first_hit_skip_data_format frames :
  first_hit_adc_keys (filter (fun f => negb (is_data_format f)) frames)
    = first_hit_adc_keys frames.
Proof.
  induction frames as [|f frames IH]; [done|].
  rewrite filter_cons.
  destruct f; cbn [is_data_format negb];
    rewrite ?decide_True, ?decide_False by (cbn; tauto);
    cbn [first_hit_adc_keys]; done.
Qed.

Lemma hits_loop_skip_data_format ignore_errors keys frames :
  forall year second cpu_trigger hits,
  hits_loop ignore_errors keys (filter (fun f => negb (is_data_format f)) frames)
      year second cpu_trigger hits
    = hits_loop ignore_errors keys frames year second cpu_trigger hits.
Proof.
  induction frames as [|f frames IH]; intros year second cpu_trigger hits; [done|].
  rewrite filter_cons.
  destruct f; cbn [is_data_format negb];
    rewrite ?decide_True, ?decide_False by (cbn; tauto);
    cbn [hits_loop]; rewrite ?IH; done.
Qed.

(** X8.  DataFormat frames have no effect on the result: the frames
    without their DataFormat frames combine to the same hits, or to the same
    error. *)
Theorem data_format_frames_change_nothing (ignore_errors : bool)
    (frames : list RawFrame) :
  combine_frames ignore_errors (filter (fun f => negb (is_data_format f)) frames)
    = combine_frames ignore_errors frames.
Proof.
  unfold combine_frames. rewrite first_hit_skip_data_format.
  destruct (first_hit_adc_keys frames); [|done].
  apply hits_loop_skip_data_format.
Qed.

(** ** The dispatch loop ends *)

Lemma frames_loop_frames_bound fuel : forall frames0 words frames stopped,
  frames_loop fuel frames0 words = Some (frames, stopped) ->
  (length frames <= length frames0 + length words)%nat.
Proof.
  induction fuel as [|fuel IH]; intros frames0 words frames stopped Hrun.
  - destruct words; [|discriminate Hrun]. injection Hrun as <- <-. lia.
  - destruct words as [|header ws]; [injection Hrun as <- <-; lia|].
    rewrite frames_loop_step in Hrun. cbn [length].
    destruct (frame_decoder header) as [m|] eqn:Hm.
    + destruct (m ws) as [[frame ws']|] eqn:Hw.
      * apply IH in Hrun. rewrite length_app in Hrun. cbn [length] in Hrun.
        assert (Hfw : forward m).
        { unfold frame_decoder in Hm. destruct (decoders !! _) as [decoder|] eqn:Hd.
          - injection Hm as <-. by eapply forward_decoders.
          - destruct (_ <? _); [|discriminate Hm]. injection Hm as <-.
            apply forward_decode_hit. }
        destruct (Hfw _ _ _ Hw) as [taken ->]. rewrite length_app. lia.
      * injection Hrun as <- <-. lia.
    + apply IH in Hrun. lia.
Qed.

(** X9.  The dispatch loop ends within one iteration per word of the
    buffer: with that many iterations allowed it is left in the regular
    way, a larger allowance gives the same frames, and there are at most as
    many frames as words. *)
Theorem dispatch_loop_ends (words : list Z) (fuel : nat) :
  (length words <= fuel)%nat ->
  exists frames stopped,
    frames_loop (length words) [] words = Some (frames, stopped) /\
    frames_loop fuel [] words = Some (frames, stopped) /\
    (length frames <= length words)%nat.
Proof.
  intros Hfuel.
  destruct (frames_loop_fuel (length words) [] words (Nat.le_refl _))
    as [[frames stopped] Hloop].
  exists frames, stopped. split; [exact Hloop|].
  split; [by apply (frames_loop_more_fuel (length words))|].
  by apply frames_loop_frames_bound in Hloop.
Qed.

(** ** The packing of the channel entries *)

Lemma enter_low_half (adc_data : gmap Z Z) (w : Z) :
  enter_half adc_data (Z.land w 0xffff)
    = <[Z.land (w ≫ 12) 0xf := Z.land w 0xfff]> adc_data.
Proof.
  unfold enter_half. f_equal.
  - rewrite (index_of_half (Z.land w 0xffff)), (index_of_half w).
    change (Z.land w 0xffff) with (Z.land w (Z.ones 16)).
    rewrite Z.land_ones by lia. by rewrite Z.mod_mod by lia.
  - by rewrite <- Z.land_assoc.
Qed.

Lemma adc_loop_layout n : forall adc_odd adc_word adc_data ws,
  (adc_fetches n adc_odd <= length ws)%nat ->
  adc_loop n adc_odd adc_word adc_data ws
    = Some (foldl enter_half adc_data (take n (pending_halves adc_odd adc_word ws)),
            drop (adc_fetches n adc_odd) ws).
Proof.
  induction n as [|n IH]; intros adc_odd adc_word adc_data ws Hlen.
  - destruct adc_odd; reflexivity.
  - destruct adc_odd.
    + rewrite adc_fetches_S_odd in *. cbn [adc_loop]. unfold bind, ret.
      rewrite IH by exact Hlen. reflexivity.
    + rewrite adc_fetches_S_even in *. cbn [adc_loop]. unfold bind, next_word.
      destruct ws as [|w ws]; [cbn [length] in Hlen; lia|].
      cbn [negb]. rewrite IH by (cbn [length] in Hlen; lia).
      unfold pending_halves. cbn [app flat_map word_halves take foldl drop].
      by rewrite enter_low_half.
Qed.

(** X10.  The channel entries of a Hit frame are packed two to a word,
    low half first: the first entry is the low half of the word [multi],
    the next two are the low and the high half of the word after it, and so
    on; the channel mapping is the first [n] of these halves entered in this
    order, [n] being the channel count, a later half replacing an earlier
    one with the same index.  The decoder returns it when [floor(n/2)] words
    follow [multi]. *)
Theorem hit_channels_are_packed_halves (header multi : Z) (rest : list Z) :
  let n := Z.to_nat (adc_count_of multi) in
  (n / 2 <= length rest)%nat ->
  _decode_hit_tot_adcs header (multi :: rest)
    = Some (RawFrameHit header (Z.land (multi ≫ 16) 0xfff)
              (foldl enter_half ∅
                 (take n (Z.land multi 0xffff :: flat_map word_halves rest))),
            drop (n / 2) rest).
Proof.
  intros n Hlen. unfold _decode_hit_tot_adcs, bind at 1, next_word. unfold bind, ret.
  fold n. rewrite (adc_loop_layout n true) by exact Hlen.
  unfold pending_halves, adc_fetches. cbn [app].
  rewrite Z.shiftr_shiftl_l by lia. change (16 - 16) with 0.
  by rewrite Z.shiftl_0_r.
Qed.

(** ** Repair and decode *)

Lemma fix_hitbuffer_data_result (data_raw : list byte) :
  fix_hitbuffer_data data_raw
    = Some (insert_loop data_raw
            ++ repeat x00 (padding (length (insert_loop data_raw)))).
Proof.
  unfold fix_hitbuffer_data. apply pad_loop_result.
  by destruct (padding_aligns (length (insert_loop data_raw))).
Qed.

(** X11.  What the repair returns always has a length that is a multiple
    of 4, so decoding it never fails with [struct.error], whatever the raw
    buffer and the mode. *)
Theorem repaired_buffer_unpacks (data_raw : list byte) (ignore_errors : bool) :
  exists repaired words,
    fix_hitbuffer_data data_raw = Some repaired /\
    iter_unpack_I repaired = Some words /\
    length repaired = (4 * length words)%nat /\
    decode_hitbuffer repaired ignore_errors ≠ Some (Raise StructError).
Proof.
  rewrite fix_hitbuffer_data_result.
  set (repaired := insert_loop data_raw ++ _). exists repaired.
  assert (Hal : (length repaired mod 4 = 0)%nat).
  { unfold repaired. rewrite length_app, repeat_length. apply padding_aligns. }
  destruct (iter_unpack_I_aligned _ repaired (Nat.le_refl _) Hal) as [words Hw].
  exists words. split; [done|]. split; [exact Hw|].
  split; [exact (proj2 (iter_unpack_I_range _ _ _ (Nat.le_refl _) Hw))|].
  pose proof (decode_hitbuffer_outcome repaired ignore_errors) as Hout.
  rewrite Hw in Hout. destruct Hout as (frames & stopped & _ & _ & _ & ->).
  destruct (stopped && negb ignore_errors); [discriminate|].
  destruct (first_hit_adc_keys frames); [|discriminate].
  destruct (_ || _); discriminate.
Qed.

Lemma insert_pair_after d i x :
  (i <= length d)%nat -> (i <= x)%nat -> insert_pair d i !! (x + 2)%nat = d !! x.
Proof.
  intros Hi Hx. unfold insert_pair.
  assert (Hlen : length (take i d) = i) by (rewrite length_take; lia).
  rewrite lookup_app_r by lia. rewrite Hlen.
  rewrite lookup_app_r by (cbn [length]; lia). cbn [length].
  rewrite lookup_drop. f_equal. lia.
Qed.

Lemma pairs_before_stays (j p : nat) :
  (pairs_before (S j) p = pairs_before j p /\ p + 2 * pairs_before j p < S j * 1024)%nat
  \/ (pairs_before (S j) p = S j /\ pairs_before j p = j /\
      S j * 1024 <= p + 2 * j)%nat.
Proof.
  unfold pairs_before. destruct (Nat.ltb_spec p 1024) as [Hlt|Hge]; [left; lia|].
  pose proof (Nat.div_mod_eq (p - 1024) 1022).
  pose proof (Nat.mod_upper_bound (p - 1024) 1022 ltac:(lia)). lia.
Qed.

Lemma insert_pairs_keep (data_raw : list byte) (j : nat) :
  (j * 1024 <= length data_raw)%nat ->
  forall p, (p < length data_raw)%nat ->
    foldl insert_pair data_raw (map (fun j => (j * 1024)%nat) (seq 1 j))
      !! (p + 2 * pairs_before j p)%nat = data_raw !! p.
Proof.
  induction j as [|j IH]; intros Hj p Hp.
  - cbn [seq map foldl]. f_equal. unfold pairs_before.
    destruct (p <? 1024)%nat; lia.
  - rewrite seq_S, map_app, foldl_app. cbn [map foldl Nat.add].
    specialize (IH ltac:(lia) p Hp).
    set (grown := foldl insert_pair data_raw _) in *.
    assert (Hgrown : length grown = (length data_raw + 2 * j)%nat).
    { unfold grown. by rewrite insert_pairs_length, length_map, length_seq. }
    destruct (pairs_before_stays j p) as [[-> Hlt]|(-> & Hj' & Hge)].
    + rewrite insert_pair_before by lia. exact IH.
    + rewrite Hj' in IH. replace (p + 2 * S j)%nat with (p + 2 * j + 2)%nat by lia.
      rewrite insert_pair_after by lia. exact IH.
Qed.

(** X12.  The repair keeps every byte of its input and their order: the
    byte at position [p] of the input is at position [p] plus twice the
    number of inserted pairs before it, that is [p] itself below 1024 and
    [p + 2 * min(k, (p - 1024) div 1022 + 1)] from there on, where [k] is
    the number of pairs inserted. *)
Theorem repair_keeps_input_bytes (data_raw : list byte) (p : nat) :
  (p < length data_raw)%nat ->
  exists repaired,
    fix_hitbuffer_data data_raw = Some repaired /\
    repaired !! (p + 2 * pairs_before ((length data_raw - 1) / 1024) p)%nat
      = data_raw !! p.
Proof.
  intros Hp. eexists. split; [apply fix_hitbuffer_data_result|].
  pose proof (Nat.div_mod_eq (length data_raw - 1) 1024) as Hdiv.
  assert (Hpb : (pairs_before ((length data_raw - 1) / 1024) p
                 <= (length data_raw - 1) / 1024)%nat).
  { unfold pairs_before. destruct (p <? 1024)%nat; lia. }
  rewrite lookup_app_l by (rewrite insert_loop_length; lia).
  rewrite insert_loop_pairs. apply insert_pairs_keep; lia.
Qed.

(** X13.  The repair returns its input unchanged exactly when the input
    has at most 1024 bytes and a length that is a multiple of 4. *)
Theorem repair_fixed_points (data_raw : list byte) :
  fix_hitbuffer_data data_raw = Some data_raw
  <-> (length data_raw <= 1024)%nat /\ (length data_raw mod 4 = 0)%nat.
Proof.
  rewrite fix_hitbuffer_data_result.
  pose proof (Nat.div_mod_eq (length data_raw - 1) 1024) as Hdiv.
  pose proof (Nat.mod_upper_bound (length data_raw - 1) 1024 ltac:(lia)) as Hmod.
  split.
  - intros [= Heq]. apply (f_equal length) in Heq.
    rewrite length_app, repeat_length, insert_loop_length in Heq.
    assert (Hk : ((length data_raw - 1) / 1024 = 0)%nat) by lia.
    assert (Hpad : padding (length data_raw + 2 * ((length data_raw - 1) / 1024)) = 0%nat)
      by lia.
    rewrite Hk, Nat.mul_0_r, Nat.add_0_r in Hpad.
    split; [lia|]. destruct (padding_aligns (length data_raw)) as [_ Hal].
    by rewrite Hpad, Nat.add_0_r in Hal.
  - intros [Hlen Hal].
    assert (Hk : ((length data_raw - 1) / 1024 = 0)%nat)
      by (apply Nat.div_small; lia).
    rewrite insert_loop_pairs, Hk. cbn [seq map foldl].
    rewrite (padding_aligned _ Hal). cbn [repeat]. by rewrite app_nil_r.
Qed.

(** ** Timestamps and offsets *)

(** X14.  One tick of the offset moves the timestamp by 3 or 4 tenths of a
    nanosecond, so within one second a larger offset always gives a larger
    timestamp and no two offsets give the same. *)
Theorem timestamp_increases_with_offset (second offset1 offset2 : Z) :
  3 <= resolve_time_10th_ns second (offset1 + 1)
       - resolve_time_10th_ns second offset1 <= 4 /\
  (offset1 < offset2 ->
   resolve_time_10th_ns second offset1 < resolve_time_10th_ns second offset2).
Proof.
  unfold resolve_time_10th_ns. split.
  - Z.div_mod_to_equations. lia.
  - intros Hlt. Z.div_mod_to_equations. lia.
Qed.

(** ** The further properties at concrete buffers *)

Lemma decoded_hits_in_range_witness :
  decode_hitbuffer scenario_bytes true = Some (Ok [scenario_hit]) /\
  Forall hit_in_range [scenario_hit].
Proof.
  assert (H : decode_hitbuffer scenario_bytes true = Some (Ok [scenario_hit]))
    by (vm_compute; reflexivity).
  exact (conj H (decoded_hits_in_range scenario_bytes true [scenario_hit] H)).
Defined.

Lemma struct_error_iff_misaligned_witness :
  (length [x0a; x00; x32] mod 4 ≠ 0)%nat /\
  decode_hitbuffer [x0a; x00; x32] true = Some (Raise StructError).
Proof.
  assert (H : (length [x0a; x00; x32] mod 4 ≠ 0)%nat) by (cbn; lia).
  exact (conj H (proj2 (struct_error_iff_misaligned [x0a; x00; x32] true) H)).
Defined.

Lemma strict_result_is_tolerant_result_witness :
  decode_hitbuffer scenario_bytes false = Some (Ok [scenario_hit]) /\
  decode_hitbuffer scenario_bytes true = Some (Ok [scenario_hit]).
Proof.
  assert (H : decode_hitbuffer scenario_bytes false = Some (Ok [scenario_hit]))
    by (vm_compute; reflexivity).
  exact (conj H (strict_result_is_tolerant_result scenario_bytes [scenario_hit] H)).
Defined.

Lemma returned_hits_share_keys_witness :
  decode_hitbuffer mismatch_bytes true = Some (Ok [first_hit]) /\
  exists keys,
    dom <$> (adc_data <$> head [first_hit]) = Some keys /\
    Forall (fun h => dom (adc_data h) = keys) [first_hit].
Proof.
  assert (H : decode_hitbuffer mismatch_bytes true = Some (Ok [first_hit]))
    by (vm_compute; reflexivity).
  exact (conj H (returned_hits_share_keys mismatch_bytes true [first_hit] H)).
Defined.

Lemma hits_follow_hit_frames_witness :
  let words := [0xe40007e8; 0xe0000064; 0xe5000020; 5; 1000; 0x2032000a; 0x00001014] in
  let frames := scenario_headers ++ [RawFrameHit 1000 50 scenario_channels] in
  iter_unpack_I scenario_bytes = Some words /\
  decode_frames false words = Some (Ok frames) /\
  decode_hitbuffer scenario_bytes false = Some (Ok [scenario_hit]) /\
  map hit_payload [scenario_hit] = omap frame_payload frames.
Proof.
  cbv zeta.
  assert (H1 : iter_unpack_I scenario_bytes
               = Some [0xe40007e8; 0xe0000064; 0xe5000020; 5; 1000; 0x2032000a;
                       0x00001014]) by (vm_compute; reflexivity).
  assert (H2 : decode_frames false
                 [0xe40007e8; 0xe0000064; 0xe5000020; 5; 1000; 0x2032000a; 0x00001014]
               = Some (Ok (scenario_headers ++ [RawFrameHit 1000 50 scenario_channels])))
    by (vm_compute; reflexivity).
  assert (H3 : decode_hitbuffer scenario_bytes false = Some (Ok [scenario_hit]))
    by (vm_compute; reflexivity).
  destruct (hits_follow_hit_frames scenario_bytes false _ _ _ H1 H2 H3)
    as (keys & _ & _ & Hstrict).
  exact (conj H1 (conj H2 (conj H3 (proj1 (Hstrict eq_refl))))).
Defined.


Lemma dispatch_loop_ends_witness :
  (length one_hit_words <= 5)%nat /\
  exists frames stopped,
    frames_loop (length one_hit_words) [] one_hit_words = Some (frames, stopped) /\
    frames_loop 5 [] one_hit_words = Some (frames, stopped) /\
    (length frames <= length one_hit_words)%nat.
Proof.
  assert (H : (length one_hit_words <= 5)%nat) by (vm_compute; lia).
  exact (conj H (dispatch_loop_ends one_hit_words 5 H)).
Defined.

Lemma hit_channels_are_packed_halves_witness :
  (Z.to_nat (adc_count_of packed_multi) / 2 <= length packed_rest)%nat /\
  _decode_hit_tot_adcs 1000 (packed_multi :: packed_rest)
    = Some (RawFrameHit 1000 50 {[0 := 10; 1 := 5; 2 := 20]}, []).
Proof.
  assert (H : (Z.to_nat (adc_count_of packed_multi) / 2 <= length packed_rest)%nat)
    by (vm_compute; lia).
  split; [exact H|].
  rewrite (hit_channels_are_packed_halves 1000 packed_multi packed_rest H).
  vm_compute. reflexivity.
Defined.

Lemma repair_keeps_input_bytes_witness :
  let data_raw := repeat xff 1030 in
  (1025 < length data_raw)%nat /\
  exists repaired,
    fix_hitbuffer_data data_raw = Some repaired /\
    repaired !! (1025 + 2 * pairs_before ((length data_raw - 1) / 1024) 1025)%nat
      = data_raw !! 1025%nat.
Proof.
  cbv zeta.
  assert (H : (1025 < length (repeat xff 1030))%nat)
    by (rewrite repeat_length; lia).
  exact (conj H (repair_keeps_input_bytes (repeat xff 1030) 1025 H)).
Defined.

Lemma repair_fixed_points_witness :
  ((length [x01; x02; x03; x04] <= 1024)%nat /\
   (length [x01; x02; x03; x04] mod 4 = 0)%nat) /\
  fix_hitbuffer_data [x01; x02; x03; x04] = Some [x01; x02; x03; x04].
Proof.
  assert (H : (length [x01; x02; x03; x04] <= 1024)%nat /\
              (length [x01; x02; x03; x04] mod 4 = 0)%nat)
    by (split; [cbn; lia | reflexivity]).
  exact (conj H (proj2 (repair_fixed_points [x01; x02; x03; x04]) H)).
Defined.

Lemma timestamp_increases_with_offset_witness :
  1000 < 1001 /\
  resolve_time_10th_ns 100 1000 < resolve_time_10th_ns 100 1001.
Proof.
  assert (H : 1000 < 1001) by lia.
  exact (conj H (proj2 (timestamp_increases_with_offset 100 1000 1001) H)).
Defined.
